(** * A shallow embedding of the sfmm allocator (src/src/sfmm.c)

    The allocator is modelled over a flat, word-addressed memory: every
    64-bit word the C code reads or writes (block headers, footers, free-list
    links, the sentinel nodes of [sf_free_list_heads]) lives in one finite map
    from byte addresses to unsigned 64-bit values.  The C globals that are not
    reached through pointers ([sf_quick_lists], [sf_current_payload],
    [sf_peak_payload], [sf_errno]) are fields of the state record.

    Every function of sfmm.c is a computation in a small state-and-error
    monad whose failures are the three ways the C code stops without
    returning: [abort()], an access to unmapped memory (a null or wild
    dereference), and running out of the fuel that bounds its loops. *)

From Stdlib Require Import ZArith Lia Bool QArith.
From stdpp Require Import base option list gmap.

Local Open Scope Z_scope.

(** ** Constants of sfmm.h and of errno *)

Definition THIS_BLOCK_ALLOCATED : Z := 1.
Definition IN_QUICK_LIST : Z := 4.
Definition NUM_QUICK_LISTS : Z := 10.
Definition NUM_FREE_LISTS : Z := 10.
Definition QUICK_LIST_MAX : Z := 5.
Definition PAGE_SZ : Z := 4096.
Definition ENOMEM : Z := 12.
Definition EINVAL : Z := 22.
Definition NULL : Z := 0.

(** [sizeof(sf_block)]: an 8-byte header followed by the two links. *)
Definition SIZEOF_BLOCK : Z := 24.

(** ** Machine arithmetic *)

Definition two64 : Z := 2 ^ 64.
Definition w64 (x : Z) : Z := x mod two64.
Definition MASK32 : Z := 4294967295.

(** [~0xF] *)
Definition NOT_0xF : Z := Z.lnot 15.

(** Pointer arithmetic, modulo the 64-bit address space. *)
Definition padd (p n : Z) : Z := w64 (p + n).
Definition psub (p n : Z) : Z := w64 (p - n).

(** ** State *)

(** One entry of [sf_quick_lists]. *)
Record qlist : Type := QList { ql_length : Z; ql_first : Z }.

Record state : Type := State {
  mem : gmap Z Z;            (* heap words and the sentinel array *)
  heap_end : Z;              (* sf_mem_end() *)
  avail : nat;               (* pages the provider can still hand out *)
  sf_quick_lists : list qlist;
  sf_current_payload : Z;
  sf_peak_payload : Z;
  sf_errno : Z
}.

Definition set_mem (m : gmap Z Z) (s : state) : state :=
  State m (heap_end s) (avail s) (sf_quick_lists s)
        (sf_current_payload s) (sf_peak_payload s) (sf_errno s).
Definition set_quick (q : list qlist) (s : state) : state :=
  State (mem s) (heap_end s) (avail s) q
        (sf_current_payload s) (sf_peak_payload s) (sf_errno s).
Definition set_current (c : Z) (s : state) : state :=
  State (mem s) (heap_end s) (avail s) (sf_quick_lists s)
        c (sf_peak_payload s) (sf_errno s).
Definition set_peak (p : Z) (s : state) : state :=
  State (mem s) (heap_end s) (avail s) (sf_quick_lists s)
        (sf_current_payload s) p (sf_errno s).
Definition set_errno (e : Z) (s : state) : state :=
  State (mem s) (heap_end s) (avail s) (sf_quick_lists s)
        (sf_current_payload s) (sf_peak_payload s) e.

(** ** The monad *)

Inductive outcome (A : Type) : Type :=
| Ret (a : A) (s : state)   (* the call returns *)
| Abort                     (* abort() *)
| Fault                     (* access to unmapped memory *)
| OutOfFuel.                (* a loop exceeded its bound *)
Arguments Ret {A} a s.
Arguments Abort {A}.
Arguments Fault {A}.
Arguments OutOfFuel {A}.

Definition M (A : Type) : Type := state -> outcome A.

Definition ret {A} (a : A) : M A := fun s => Ret a s.
Definition bind {A B} (m : M A) (k : A -> M B) : M B :=
  fun s => match m s with
           | Ret a s' => k a s'
           | Abort => Abort
           | Fault => Fault
           | OutOfFuel => OutOfFuel
           end.
Definition abort {A} : M A := fun _ => Abort.
Definition out_of_fuel {A} : M A := fun _ => OutOfFuel.
Definition get {A} (f : state -> A) : M A := fun s => Ret (f s) s.
Definition modify (f : state -> state) : M unit := fun s => Ret tt (f s).

Notation "x <- m ;; k" := (bind m (fun x => k))
  (at level 100, m at next level, right associativity).
Notation "m ;;; k" := (bind m (fun _ => k))
  (at level 100, right associativity).

(** ** The allocator

    Three facts about the environment are not in sfmm.c: the obfuscation
    mask [MAGIC] (sf_magic() of sfmm.h), the address [heap_start] at which
    the page provider places the heap (sf_mem_start()), and the address
    [heads] of the global array [sf_free_list_heads].  They are parameters
    of the whole development. *)

Section Allocator.

Variable MAGIC : Z.
Variable heap_start : Z.
Variable heads : Z.

(** *** Memory accesses *)

Definition in_heap (a : Z) (s : state) : bool :=
  (heap_start <=? a) && (a + 8 <=? heap_end s).
Definition in_heads (a : Z) : bool :=
  (heads <=? a) && (a + 8 <=? heads + SIZEOF_BLOCK * NUM_FREE_LISTS).
Definition mapped (a : Z) (s : state) : bool := in_heap a s || in_heads a.

Definition load (a : Z) : M Z :=
  fun s => if mapped a s then Ret (default 0 (mem s !! a)) s else Fault.
Definition store (a v : Z) : M unit :=
  fun s => if mapped a s then Ret tt (set_mem (<[a := v]> (mem s)) s) else Fault.

(** [&sf_free_list_heads[i]] and the offsets of the links inside a block. *)
Definition free_list_head (i : Z) : Z := heads + SIZEOF_BLOCK * i.
Definition next_of (b : Z) : Z := padd b 8.
Definition prev_of (b : Z) : Z := padd b 16.

Definition quick_list (i : Z) (s : state) : qlist :=
  default (QList 0 NULL) (sf_quick_lists s !! Z.to_nat i).
Definition set_quick_list (i : Z) (q : qlist) (s : state) : state :=
  set_quick (<[Z.to_nat i := q]> (sf_quick_lists s)) s.

(** Modelled from the spec: the page provider (sf_mem_start, sf_mem_end and
    sf_mem_grow are declared in sfmm.h and defined outside this repository).
    [sf_mem_grow] extends the heap by exactly PAGE_SZ bytes and returns the
    address where the new page begins, or null when it cannot grow. *)
Definition sf_mem_grow : M Z :=
  fun s => match avail s with
           | O => Ret NULL s
           | S n => Ret (heap_end s)
                        (State (mem s) (heap_end s + PAGE_SZ) n (sf_quick_lists s)
                               (sf_current_payload s) (sf_peak_payload s) (sf_errno s))
           end.

(** The body of [for (int i = 0; i < n; i++)]. *)
Fixpoint for_loop (n : nat) (i : Z) (body : Z -> M unit) : M unit :=
  match n with
  | O => ret tt
  | S n' => body i ;;; for_loop n' (i + 1) body
  end.

(** *** get_free_list_index_for_size *)

Fixpoint index_loop (n : nat) (current_class_size current_index total : Z) : Z :=
  match n with
  | O => current_index
  | S n' =>
      if (current_class_size <? total) && (current_index <? NUM_FREE_LISTS - 1)
      then index_loop n' (w64 (Z.shiftl current_class_size 1)) (current_index + 1) total
      else current_index
  end.

Definition get_free_list_index_for_size (total_block_size : Z) : Z :=
  if total_block_size <=? 32 then 0
  else index_loop (Z.to_nat NUM_FREE_LISTS) 32 0 total_block_size.

(** *** calculate_aligned_block_size *)

Definition calculate_aligned_block_size (requested_payload_size : Z) : Z :=
  let size_with_header_and_footer := w64 (w64 (requested_payload_size + 8) + 8) in
  let size_aligned_to_16 := Z.land (w64 (size_with_header_and_footer + 15)) NOT_0xF in
  if size_aligned_to_16 <? 32 then 32 else size_aligned_to_16.

(** *** initialize_all_free_list_sentinels, initialize_all_quick_lists *)

Definition initialize_all_free_list_sentinels : M unit :=
  for_loop (Z.to_nat NUM_FREE_LISTS) 0 (fun list_index =>
    let sentinel_node := free_list_head list_index in
    store (next_of sentinel_node) sentinel_node ;;;
    store (prev_of sentinel_node) sentinel_node ;;;
    store sentinel_node 0).

Definition initialize_all_quick_lists : M unit :=
  for_loop (Z.to_nat NUM_QUICK_LISTS) 0 (fun i =>
    modify (set_quick_list i (QList 0 NULL))).

(** *** insert_block_into_free_list *)

Definition insert_block_into_free_list (free_block : Z) : M unit :=
  h <- load free_block ;;
  let header_unmasked := Z.lxor h MAGIC in
  let block_size := Z.land header_unmasked NOT_0xF in
  store free_block (Z.lxor block_size MAGIC) ;;;
  h' <- load free_block ;;
  store (psub (padd free_block block_size) 8) h' ;;;
  let index := get_free_list_index_for_size block_size in
  let sentinel := free_list_head index in
  n <- load (next_of sentinel) ;;
  store (next_of free_block) n ;;;
  store (prev_of free_block) sentinel ;;;
  n' <- load (next_of sentinel) ;;
  store (prev_of n') free_block ;;;
  store (next_of sentinel) free_block.

(** *** remove_block_from_free_list *)

Definition remove_block_from_free_list (block_to_remove : Z) : M unit :=
  if block_to_remove =? NULL then abort else
  previous_block <- load (prev_of block_to_remove) ;;
  next_block <- load (next_of block_to_remove) ;;
  if (previous_block =? NULL) || (next_block =? NULL) then abort else
  (if negb (previous_block =? block_to_remove)
   then store (next_of previous_block) next_block else ret tt) ;;;
  (if negb (next_block =? block_to_remove)
   then store (prev_of next_block) previous_block else ret tt).

(** *** initialize_heap_during_first_call_to_sf_malloc *)

Definition initialize_heap_during_first_call_to_sf_malloc : M unit :=
  hs <- sf_mem_grow ;;
  if hs =? NULL then modify (set_errno ENOMEM) else
  initialize_all_free_list_sentinels ;;;
  initialize_all_quick_lists ;;;
  let prologue_block := padd hs 8 in
  store prologue_block (Z.lxor (Z.lor 32 THIS_BLOCK_ALLOCATED) MAGIC) ;;;
  let initial_free_block_size := PAGE_SZ - 32 - 8 in
  let initial_free_block := padd prologue_block 32 in
  store initial_free_block (Z.lxor initial_free_block_size MAGIC) ;;;
  h <- load initial_free_block ;;
  store (psub (padd initial_free_block initial_free_block_size) 8) h ;;;
  e <- get heap_end ;;
  store (psub e 8) (Z.lxor (Z.lor 8 THIS_BLOCK_ALLOCATED) MAGIC) ;;;
  insert_block_into_free_list initial_free_block.

(** *** find_first_free_block_that_fits *)

(** The inner [while (current_block != sentinel_node)]; NULL stands for
    "reached the sentinel".  A null link itself is dereferenced, as in C. *)
Fixpoint scan_free_list (fuel : nat) (sentinel_node current_block required : Z) : M Z :=
  match fuel with
  | O => out_of_fuel
  | S fuel' =>
      if current_block =? sentinel_node then ret NULL else
      h <- load current_block ;;
      let current_block_size := Z.land (Z.lxor h MAGIC) NOT_0xF in
      if current_block_size >=? required then ret current_block else
      n <- load (next_of current_block) ;;
      scan_free_list fuel' sentinel_node n required
  end.

Fixpoint scan_free_lists (n fuel : nat) (current_index required : Z) : M Z :=
  match n with
  | O => ret NULL
  | S n' =>
      if current_index <? NUM_FREE_LISTS then
        let sentinel_node := free_list_head current_index in
        first <- load (next_of sentinel_node) ;;
        r <- scan_free_list fuel sentinel_node first required ;;
        if r =? NULL then scan_free_lists n' fuel (current_index + 1) required
        else ret r
      else ret NULL
  end.

Definition find_first_free_block_that_fits (fuel : nat) (required : Z) : M Z :=
  let starting_list_index := get_free_list_index_for_size required in
  scan_free_lists (Z.to_nat NUM_FREE_LISTS) fuel starting_list_index required.

(** *** split_free_block_if_necessary *)

Definition split_free_block_if_necessary (free_block needed_size : Z) : M unit :=
  h <- load free_block ;;
  let free_block_total_size := Z.land (Z.lxor h MAGIC) NOT_0xF in
  let remaining_block_size := w64 (free_block_total_size - needed_size) in
  if remaining_block_size <? 32 then ret tt else
  let new_free_block := padd free_block needed_size in
  store new_free_block (Z.lxor remaining_block_size MAGIC) ;;;
  h1 <- load new_free_block ;;
  store (psub (padd new_free_block remaining_block_size) 8) h1 ;;;
  insert_block_into_free_list new_free_block ;;;
  let payload_size := w64 (needed_size - 16) in
  let alloc_header :=
    Z.lor (w64 (Z.shiftl payload_size 32)) (Z.lor needed_size THIS_BLOCK_ALLOCATED) in
  store free_block (Z.lxor alloc_header MAGIC) ;;;
  h2 <- load free_block ;;
  store (psub (padd free_block needed_size) 8) h2.

(** *** mark_block_as_allocated *)

Definition add_payload (n : Z) (s : state) : state :=
  let c := w64 (sf_current_payload s + n) in
  let s' := set_current c s in
  if c >? sf_peak_payload s' then set_peak c s' else s'.

Definition mark_block_as_allocated (allocated_block final_size requested : Z) : M unit :=
  h <- load allocated_block ;;
  let unmasked_header := Z.lxor h MAGIC in
  let lower := Z.land unmasked_header MASK32 in
  let flags := Z.land lower 15 in
  let new_header :=
    Z.lor (w64 (Z.shiftl requested 32))
          (Z.lor final_size (Z.lor (Z.land flags IN_QUICK_LIST) THIS_BLOCK_ALLOCATED)) in
  store allocated_block (Z.lxor new_header MAGIC) ;;;
  h' <- load allocated_block ;;
  store (psub (padd allocated_block final_size) 8) h' ;;;
  let next_block := padd allocated_block final_size in
  e <- get heap_end ;;
  (if next_block <? e then
     nh <- load next_block ;;
     let next_unmasked := Z.land (Z.lxor nh MAGIC) (Z.lnot IN_QUICK_LIST) in
     store next_block (Z.lxor next_unmasked MAGIC)
   else ret tt) ;;;
  modify (add_payload requested).

(** *** extend_heap_by_one_page *)

Definition write_free_region_and_epilogue (final_free_block new_block_size : Z) : M Z :=
  store final_free_block (Z.lxor new_block_size MAGIC) ;;;
  h <- load final_free_block ;;
  store (psub (padd final_free_block new_block_size) 8) h ;;;
  e <- get heap_end ;;
  store (psub e 8) (Z.lxor (Z.lor 8 THIS_BLOCK_ALLOCATED) MAGIC) ;;;
  insert_block_into_free_list final_free_block ;;;
  ret final_free_block.

Definition extend_heap_by_one_page : M Z :=
  new_page_start <- sf_mem_grow ;;
  if new_page_start =? NULL then modify (set_errno ENOMEM) ;;; ret NULL else
  let new_free_block := psub new_page_start 8 in
  let prev_block := psub new_free_block 8 in
  ph <- load prev_block ;;
  let prev_header_unmasked := Z.lxor ph MAGIC in
  if Z.land prev_header_unmasked THIS_BLOCK_ALLOCATED =? 0 then
    let prev_block_size := Z.land prev_header_unmasked NOT_0xF in
    let prev_block' := psub new_free_block prev_block_size in
    let new_block_size := w64 (PAGE_SZ + prev_block_size) in
    remove_block_from_free_list prev_block' ;;;
    write_free_region_and_epilogue prev_block' new_block_size
  else
    write_free_region_and_epilogue new_free_block PAGE_SZ.

(** *** coalesce_adjacent_free_blocks *)

Definition sane_free_tag (lower : Z) : bool :=
  let size := Z.land lower NOT_0xF in
  (size >=? 32) && (size mod 16 =? 0) && (Z.land lower THIS_BLOCK_ALLOCATED =? 0).

Definition coalesce_with_predecessor (target original_size : Z) : M (Z * Z) :=
  if target >? padd heap_start 32 then
    let prev_footer := psub target 8 in
    if prev_footer >=? heap_start then
      v <- load prev_footer ;;
      let prev_lower := Z.land (Z.lxor v MAGIC) MASK32 in
      let prev_size := Z.land prev_lower NOT_0xF in
      if sane_free_tag prev_lower then
        let prev_block := psub target prev_size in
        remove_block_from_free_list prev_block ;;;
        ret (prev_block, w64 (original_size + prev_size))
      else ret (target, original_size)
    else ret (target, original_size)
  else ret (target, original_size).

Definition coalesce_with_successor (base_block total_size : Z) : M Z :=
  let next_block := padd base_block total_size in
  e <- get heap_end ;;
  if padd next_block 8 <=? e then
    nh <- load next_block ;;
    let next_lower := Z.land (Z.lxor nh MAGIC) MASK32 in
    let next_size := Z.land next_lower NOT_0xF in
    if sane_free_tag next_lower then
      remove_block_from_free_list next_block ;;;
      ret (w64 (total_size + next_size))
    else ret total_size
  else ret total_size.

Definition coalesce_adjacent_free_blocks (target_free_block : Z) : M Z :=
  if target_free_block =? NULL then abort else
  h <- load target_free_block ;;
  let lower_bits := Z.land (Z.lxor h MAGIC) MASK32 in
  let original_size := Z.land lower_bits NOT_0xF in
  if (original_size <? 32) || negb (original_size mod 16 =? 0) then abort else
  bt <- coalesce_with_predecessor target_free_block original_size ;;
  let base_block := fst bt in
  total_size <- coalesce_with_successor base_block (snd bt) ;;
  store base_block (Z.lxor total_size MAGIC) ;;;
  let footer_loc := psub (padd base_block total_size) 8 in
  e <- get heap_end ;;
  (if footer_loc <? e then h' <- load base_block ;; store footer_loc h'
   else abort) ;;;
  ret base_block.

(** *** flush_quick_list *)

Fixpoint flush_quick_list (fuel : nat) (ql_index : Z) : M unit :=
  match fuel with
  | O => out_of_fuel
  | S fuel' =>
      q <- get (quick_list ql_index) ;;
      if ql_length q >? 0 then
        let block := ql_first q in
        n <- load (next_of block) ;;
        modify (set_quick_list ql_index (QList (ql_length q - 1) n)) ;;;
        encoded_header <- load block ;;
        let decoded_header := Z.lxor encoded_header MAGIC in
        let block_size := Z.land decoded_header NOT_0xF in
        store block (Z.lxor block_size MAGIC) ;;;
        let footer := psub (padd block block_size) 8 in
        e <- get heap_end ;;
        (if (footer >=? heap_start) && (footer <? e)
         then h <- load block ;; store footer h
         else abort) ;;;
        block' <- coalesce_adjacent_free_blocks block ;;
        insert_block_into_free_list block' ;;;
        flush_quick_list fuel' ql_index
      else ret tt
  end.

(** *** sf_malloc *)

(** The [while (chosen_block == NULL)] loop; it yields NULL exactly when the
    function takes its [return NULL] after a failed extension. *)
Fixpoint extend_until_fit (n fuel : nat) (chosen_block required : Z) : M Z :=
  match n with
  | O => out_of_fuel
  | S n' =>
      if chosen_block =? NULL then
        new_block <- extend_heap_by_one_page ;;
        if new_block =? NULL then modify (set_errno ENOMEM) ;;; ret NULL else
        c <- find_first_free_block_that_fits fuel required ;;
        extend_until_fit n' fuel c required
      else ret chosen_block
  end.

Definition sf_malloc (fuel : nat) (requested_size : Z) : M Z :=
  if requested_size =? 0 then ret NULL else
  e <- get heap_end ;;
  (if heap_start =? e then initialize_heap_during_first_call_to_sf_malloc
   else ret tt) ;;;
  let required_block_size := calculate_aligned_block_size requested_size in
  c <- find_first_free_block_that_fits fuel required_block_size ;;
  chosen_block <- extend_until_fit fuel fuel c required_block_size ;;
  if chosen_block =? NULL then ret NULL else
  split_free_block_if_necessary chosen_block required_block_size ;;;
  remove_block_from_free_list chosen_block ;;;
  mark_block_as_allocated chosen_block required_block_size requested_size ;;;
  ret (padd chosen_block 8).

(** *** sf_free *)

Definition push_on_quick_list (fuel : nat) (block payload_size block_size : Z) : M unit :=
  let ql_index := (block_size - 32) / 16 in
  if (ql_index <? 0) || (ql_index >=? NUM_QUICK_LISTS) then abort else
  q <- get (quick_list ql_index) ;;
  (if ql_length q >=? QUICK_LIST_MAX then flush_quick_list fuel ql_index
   else ret tt) ;;;
  let new_header :=
    Z.lor (w64 (Z.shiftl payload_size 32))
          (Z.lor block_size (Z.lor THIS_BLOCK_ALLOCATED IN_QUICK_LIST)) in
  store block (Z.lxor new_header MAGIC) ;;;
  h <- load block ;;
  store (psub (padd block block_size) 8) h ;;;
  q' <- get (quick_list ql_index) ;;
  store (next_of block) (ql_first q') ;;;
  modify (fun s => set_quick_list ql_index
                     (QList (ql_length (quick_list ql_index s)) block) s) ;;;
  modify (fun s => set_quick_list ql_index
                     (QList (ql_length (quick_list ql_index s) + 1)
                            (ql_first (quick_list ql_index s))) s).

Definition release_to_free_list (block payload_size block_size : Z) : M unit :=
  let new_header := Z.lor (w64 (Z.shiftl payload_size 32)) block_size in
  store block (Z.lxor new_header MAGIC) ;;;
  let footer := psub (padd block block_size) 8 in
  e <- get heap_end ;;
  (if (footer >=? heap_start) && (footer <? e)
   then h <- load block ;; store footer h
   else abort) ;;;
  coalesced <- coalesce_adjacent_free_blocks block ;;
  if coalesced =? NULL then abort else
  insert_block_into_free_list coalesced.


Definition sf_free (fuel : nat) (pp : Z) : M unit :=
  if pp =? NULL then ret tt else
  let block := psub pp 8 in
  encoded_header <- load block ;;
  let decoded_header := Z.lxor encoded_header MAGIC in
  let payload_size := Z.shiftr decoded_header 32 in
  let block_size := Z.land (Z.land decoded_header MASK32) NOT_0xF in
  if (block_size <? 32) || negb (block_size mod 16 =? 0) then abort else
  if Z.land decoded_header THIS_BLOCK_ALLOCATED =? 0 then abort else
  if negb (Z.land decoded_header IN_QUICK_LIST =? 0) then abort else
  e <- get heap_end ;;
  if (block <? heap_start) || (block >=? e) then abort else
  modify (fun s => set_current (w64 (sf_current_payload s - payload_size)) s) ;;;
  let max_quick_size := 32 + 16 * (NUM_QUICK_LISTS - 1) in
  if block_size <=? max_quick_size
  then push_on_quick_list fuel block payload_size block_size
  else release_to_free_list block payload_size block_size.

(** *** sf_realloc *)

Fixpoint copy_words (n : nat) (dst src : Z) : M unit :=
  match n with
  | O => ret tt
  | S n' => v <- load src ;; store dst v ;;; copy_words n' (padd dst 8) (padd src 8)
  end.

(** [memcpy(dst, src, n)] on the word-addressed memory (little-endian: the
    trailing [n mod 8] bytes are the low bytes of the last word). *)
Definition memcpy (dst src n : Z) : M unit :=
  copy_words (Z.to_nat (n / 8)) dst src ;;;
  let r := n mod 8 in
  if r =? 0 then ret tt else
  let d := padd dst (8 * (n / 8)) in
  v <- load (padd src (8 * (n / 8))) ;;
  old <- load d ;;
  store d (Z.lor (Z.land v (Z.ones (8 * r))) (Z.land old (Z.lnot (Z.ones (8 * r))))).

Definition replace_payload (old_payload rsize : Z) (s : state) : state :=
  let c := w64 (w64 (sf_current_payload s - old_payload) + rsize) in
  let s' := set_current c s in
  if c >? sf_peak_payload s' then set_peak c s' else s'.

(** The two validation tests of sf_realloc. *)
Definition realloc_range_fails (pp : Z) (s : state) : bool :=
  (pp <? padd heap_start 40) || (pp >=? heap_end s).
Definition realloc_flags_fail (decoded_header : Z) : bool :=
  (Z.land decoded_header THIS_BLOCK_ALLOCATED =? 0)
  || negb (Z.land decoded_header IN_QUICK_LIST =? 0).

Definition sf_realloc (fuel : nat) (pp rsize : Z) : M Z :=
  if pp =? NULL then sf_malloc fuel rsize else
  if rsize =? 0 then sf_free fuel pp ;;; ret NULL else
  out_of_range <- get (realloc_range_fails pp) ;;
  if out_of_range then modify (set_errno EINVAL) ;;; ret NULL else
  let block := psub pp 8 in
  encoded_header <- load block ;;
  let decoded_header := Z.lxor encoded_header MAGIC in
  if realloc_flags_fail decoded_header then modify (set_errno EINVAL) ;;; ret NULL else
  let old_size := Z.land (Z.land decoded_header MASK32) NOT_0xF in
  let old_payload := Z.shiftr decoded_header 32 in
  let new_size := calculate_aligned_block_size rsize in
  if new_size =? old_size then
    let updated_header :=
      Z.lor (w64 (Z.shiftl rsize 32)) (Z.lor old_size THIS_BLOCK_ALLOCATED) in
    store block (Z.lxor updated_header MAGIC) ;;;
    modify (replace_payload old_payload rsize) ;;;
    ret pp
  else if new_size <? old_size then
    let leftover_size := w64 (old_size - new_size) in
    modify (replace_payload old_payload rsize) ;;;
    (if leftover_size >=? 32 then
       let resized_header :=
         Z.lor (w64 (Z.shiftl rsize 32)) (Z.lor new_size THIS_BLOCK_ALLOCATED) in
       store block (Z.lxor resized_header MAGIC) ;;;
       h <- load block ;;
       store (psub (padd block new_size) 8) h ;;;
       let leftover_block := padd block new_size in
       store leftover_block (Z.lxor leftover_size MAGIC) ;;;
       h' <- load leftover_block ;;
       store (psub (padd leftover_block leftover_size) 8) h' ;;;
       coalesced <- coalesce_adjacent_free_blocks leftover_block ;;
       insert_block_into_free_list coalesced
     else
       let resized_header :=
         Z.lor (w64 (Z.shiftl rsize 32)) (Z.lor old_size THIS_BLOCK_ALLOCATED) in
       store block (Z.lxor resized_header MAGIC)) ;;;
    ret pp
  else
    new_pp <- sf_malloc fuel rsize ;;
    if new_pp =? NULL then modify (set_errno ENOMEM) ;;; ret NULL else
    memcpy new_pp pp old_payload ;;;
    sf_free fuel pp ;;;
    ret new_pp.

(** *** sf_fragmentation

    The C function returns a [double]; the model returns the exact rational
    quotient of the two accumulated [size_t] totals. *)

Definition count_block (payload block_size : Z) (acc : Z * Z) : Z * Z :=
  (w64 (fst acc + payload), w64 (snd acc + block_size)).

Fixpoint walk_heap (fuel : nat) (current : Z) (acc : Z * Z) : M (Z * Z) :=
  match fuel with
  | O => out_of_fuel
  | S fuel' =>
      e <- get heap_end ;;
      if padd current 8 <? e then
        raw_header <- load current ;;
        let header := Z.lxor raw_header MAGIC in
        let payload := Z.shiftr header 32 in
        let lower := Z.land header MASK32 in
        let block_size := Z.land lower NOT_0xF in
        let flags := Z.land lower 15 in
        if (block_size <? 32) || negb (block_size mod 16 =? 0) then ret acc else
        walk_heap fuel' (padd current block_size)
                  (if Z.land flags THIS_BLOCK_ALLOCATED =? 0 then acc
                   else count_block payload block_size acc)
      else ret acc
  end.

Fixpoint walk_quick_list (fuel : nat) (q : Z) (acc : Z * Z) : M (Z * Z) :=
  match fuel with
  | O => out_of_fuel
  | S fuel' =>
      if q =? NULL then ret acc else
      raw_header <- load q ;;
      let header := Z.lxor raw_header MAGIC in
      let payload := Z.shiftr header 32 in
      let lower := Z.land header MASK32 in
      let block_size := Z.land lower NOT_0xF in
      n <- load (next_of q) ;;
      walk_quick_list fuel' n (count_block payload block_size acc)
  end.

Fixpoint walk_quick_lists (n fuel : nat) (i : Z) (acc : Z * Z) : M (Z * Z) :=
  match n with
  | O => ret acc
  | S n' =>
      q <- get (quick_list i) ;;
      acc' <- walk_quick_list fuel (ql_first q) acc ;;
      walk_quick_lists n' fuel (i + 1) acc'
  end.

Definition ratio (num den : Z) : Q :=
  if den =? 0 then 0%Q else (inject_Z num / inject_Z den)%Q.

(** The two totals [(total_payload, total_allocated_block_size)] at the end
    of sf_fragmentation, before the division. *)
Definition fragmentation_totals (fuel : nat) : M (Z * Z) :=
  acc <- walk_heap fuel (padd heap_start 40) (0, 0) ;;
  walk_quick_lists (Z.to_nat NUM_QUICK_LISTS) fuel 0 acc.

Definition sf_fragmentation (fuel : nat) : M Q :=
  totals <- fragmentation_totals fuel ;;
  ret (ratio (fst totals) (snd totals)).

(** *** sf_utilization *)

Definition sf_utilization : M Q :=
  e <- get heap_end ;;
  if heap_start =? e then ret 0%Q else
  let heap_size := w64 (e - heap_start) in
  if heap_size =? 0 then ret 0%Q else
  p <- get sf_peak_payload ;;
  ret (inject_Z p / inject_Z heap_size)%Q.

End Allocator.

(** ** A concrete environment for the scenarios

    Before the first call the heap is empty ([sf_mem_end() == sf_mem_start()]),
    the globals are zero-initialised and no memory word has been written. *)

Definition fresh (heap_start : Z) (pages : nat) : state :=
  State ∅ heap_start pages (replicate 10 (QList 0 NULL)) 0 0 0.

(** ** Observers

    The instrumentation of tests/sfmm_tests.c ([assert_free_block_count],
    [assert_quick_list_block_count]) and a heap walk by block size, as pure
    functions of a state. *)

Section Observers.

Variable MAGIC : Z.
Variable heap_start : Z.
Variable heads : Z.

Definition word (s : state) (a : Z) : Z := default 0 (mem s !! a).

(** [(bp->header ^ sf_magic()) & ~0xffffffff0000000f] *)
Definition tag_size (s : state) (bp : Z) : Z :=
  Z.land (Z.land (Z.lxor (word s bp) MAGIC) MASK32) NOT_0xF.
Definition tag_flags (s : state) (bp : Z) : Z :=
  Z.land (Z.lxor (word s bp) MAGIC) 15.
Definition tag_payload (s : state) (bp : Z) : Z :=
  Z.shiftr (Z.lxor (word s bp) MAGIC) 32.

(** The members of one circular free list, head first. *)
Fixpoint free_list_from (fuel : nat) (s : state) (sentinel bp : Z) : list Z :=
  match fuel with
  | O => []
  | S fuel' =>
      if bp =? sentinel then []
      else bp :: free_list_from fuel' s sentinel (word s (bp + 8))
  end.

Definition free_list (fuel : nat) (s : state) (i : Z) : list Z :=
  let sentinel := free_list_head heads i in
  free_list_from fuel s sentinel (word s (sentinel + 8)).

Definition free_blocks (fuel : nat) (s : state) : list Z :=
  flat_map (fun i => free_list fuel s (Z.of_nat i)) (seq 0 10).

(** The members of one quick list, head first. *)
Fixpoint quick_list_from (fuel : nat) (s : state) (bp : Z) : list Z :=
  match fuel with
  | O => []
  | S fuel' =>
      if bp =? NULL then []
      else bp :: quick_list_from fuel' s (word s (bp + 8))
  end.

Definition quick_blocks_of (fuel : nat) (s : state) (i : Z) : list Z :=
  quick_list_from fuel s (ql_first (quick_list i s)).

Definition quick_blocks (fuel : nat) (s : state) : list Z :=
  flat_map (fun i => quick_blocks_of fuel s (Z.of_nat i)) (seq 0 10).

(** The blocks met when striding by block size from the end of the prologue
    to the epilogue, each with its decoded size and flag nibble. *)
Fixpoint heap_blocks_from (fuel : nat) (s : state) (bp : Z) : list (Z * Z * Z) :=
  match fuel with
  | O => []
  | S fuel' =>
      if bp + 8 <? heap_end s then
        if tag_size s bp <? 32 then []
        else (bp, tag_size s bp, tag_flags s bp)
               :: heap_blocks_from fuel' s (bp + tag_size s bp)
      else []
  end.

Definition heap_blocks (fuel : nat) (s : state) : list (Z * Z * Z) :=
  heap_blocks_from fuel s (heap_start + 40).

End Observers.

(** ** Scenarios on a concrete environment

    The scenarios run with the heap at [HEAP_BASE] and the sentinel array at
    [HEADS_BASE].  Each is checked twice: with obfuscation switched off
    ([MAGIC = 0]) and with the mask [SAMPLE_MAGIC]. *)

Definition HEAP_BASE : Z := 65536.
Definition HEADS_BASE : Z := 4096.
Definition SAMPLE_MAGIC : Z := 0x5A5AF00DCAFEBABF.
Definition FUEL : nat := 64.

Section Scenarios.

Variable MAGIC : Z.

Definition malloc_ := sf_malloc MAGIC HEAP_BASE HEADS_BASE FUEL.
Definition free_ := sf_free MAGIC HEAP_BASE HEADS_BASE FUEL.
Definition realloc_ := sf_realloc MAGIC HEAP_BASE HEADS_BASE FUEL.
Definition sizes_of (s : state) (l : list Z) : list Z := map (tag_size MAGIC s) l.
Definition free_sizes (s : state) : list Z := sizes_of s (free_blocks HEADS_BASE FUEL s).
Definition quick_sizes (s : state) : list Z := sizes_of s (quick_blocks FUEL s).

(** Decide a property of the state in which a computation returns. *)
Definition returns {A} (m : M A) (s : state) (P : A -> state -> bool) : bool :=
  match m s with
  | Ret a s' => P a s'
  | _ => false
  end.

Definition list_eqb (l1 l2 : list Z) : bool := bool_decide (l1 = l2).

(** After bootstrap: prologue tag 32|ALLOCATED at heap_start+8, epilogue tag
    8|ALLOCATED in the last word of the page, one free block of 4048 bytes
    right after the prologue, empty quick lists. *)
Definition bootstrap_layout (pages : nat) : bool :=
  returns (initialize_heap_during_first_call_to_sf_malloc MAGIC HEAP_BASE HEADS_BASE)
          (fresh HEAP_BASE pages)
    (fun _ s =>
       (heap_end s =? HEAP_BASE + PAGE_SZ)
       && (Z.lxor (word s (HEAP_BASE + 8)) MAGIC =? Z.lor 32 THIS_BLOCK_ALLOCATED)
       && (Z.lxor (word s (HEAP_BASE + PAGE_SZ - 8)) MAGIC =? Z.lor 8 THIS_BLOCK_ALLOCATED)
       && list_eqb (free_blocks HEADS_BASE FUEL s) [HEAP_BASE + 40]
       && list_eqb (free_sizes s) [4048]
       && list_eqb (quick_blocks FUEL s) []).

(** S1: allocate(4) on the empty heap. *)
Definition first_allocate (pages : nat) : bool :=
  returns (malloc_ 4) (fresh HEAP_BASE pages)
    (fun p s =>
       negb (p =? NULL)
       && (heap_end s - HEAP_BASE =? PAGE_SZ)
       && list_eqb (free_sizes s) [4016]
       && list_eqb (quick_blocks FUEL s) []
       && (sf_errno s =? 0)).

End Scenarios.

(** C1. On an empty heap whose provider can supply at least one page, the
    bootstrap lays down the 32-byte prologue and the 8-byte epilogue and
    leaves exactly one free block, of 4048 bytes; allocate(4) then returns a
    non-null pointer, the heap is one page, exactly one free block of 4016
    bytes remains and the quick lists are empty. *)
Theorem C1_bootstrap_then_allocate_4 :
  forall pages : nat,
    bootstrap_layout 0 (S pages) = true
    /\ first_allocate 0 (S pages) = true
    /\ bootstrap_layout SAMPLE_MAGIC (S pages) = true
    /\ first_allocate SAMPLE_MAGIC (S pages) = true.
Proof.
  intros pages. repeat split; vm_compute; reflexivity.
Qed.

Section MoreScenarios.

Variable MAGIC : Z.

Let malloc' := malloc_ MAGIC.
Let free' := free_ MAGIC.
Let realloc' := realloc_ MAGIC.
Let start : state := fresh HEAP_BASE 37.

(** The totals the spec describes: every block of the heap walk with
    ALLOCATED set, counted once. *)
Definition allocated_totals (s : state) : Z * Z :=
  fold_left
    (fun acc b =>
       if Z.land (snd b) THIS_BLOCK_ALLOCATED =? 0 then acc
       else (fst acc + tag_payload MAGIC s (fst (fst b)), snd acc + snd (fst b)))
    (heap_blocks MAGIC HEAP_BASE FUEL s) (0, 0).

Definition pair_eqb (a b : Z * Z) : bool :=
  (fst a =? fst b) && (snd a =? snd b).

(** S8: three live allocations, nothing on a quick list. *)
Definition fragmentation_of_three : bool :=
  returns (_ <- malloc' 24 ;; _ <- malloc' 100 ;; _ <- malloc' 40 ;;
           sf_fragmentation MAGIC HEAP_BASE HEADS_BASE FUEL) start
    (fun q _ => Qeq_bool q (164 # 240)).

(** One block on a quick list, one live allocation. *)
Definition fragmentation_with_quick_block : bool :=
  returns (x <- malloc' 8 ;; _ <- malloc' 100 ;; free' x ;;;
           fragmentation_totals MAGIC HEAP_BASE HEADS_BASE FUEL) start
    (fun t s =>
       list_eqb (quick_blocks FUEL s) [HEAP_BASE + 40]
       && pair_eqb (allocated_totals s) (108, 160)
       && pair_eqb t (116, 192)
       && negb (Qeq_bool (ratio (fst t) (snd t)) (108 # 160))).

(** A quick-list block whose predecessor is handed out again.  The first
    allocation [g] is never freed: it keeps every coalescing step away from
    the prologue. *)
Definition quick_block_loses_flag : bool :=
  returns (_ <- malloc' 8 ;; a <- malloc' 200 ;; b <- malloc' 8 ;;
           free' b ;;; free' a ;;; ret b) start
    (fun b s =>
       list_eqb (quick_blocks FUEL s) [b - 8]
       && (tag_flags MAGIC s (b - 8) =? Z.lor THIS_BLOCK_ALLOCATED IN_QUICK_LIST))
  && returns (_ <- malloc' 8 ;; a <- malloc' 200 ;; b <- malloc' 8 ;;
              free' b ;;; free' a ;;;
              a' <- malloc' 200 ;; ret (a', b)) start
    (fun r s =>
       negb (fst r =? snd r)
       && list_eqb (quick_blocks FUEL s) [snd r - 8]
       && (tag_flags MAGIC s (snd r - 8) =? THIS_BLOCK_ALLOCATED)).

(** Bootstrap when the provider has no page at all. *)
Definition bootstrap_without_pages (n : Z) : outcome Z :=
  malloc' n (fresh HEAP_BASE 0).

(** Is some block of the walk free (ALLOCATED clear, hence on no quick list)
    and directly followed by another such block? *)
Fixpoint adjacent_free (l : list (Z * Z * Z)) : bool :=
  match l with
  | b1 :: ((b2 :: _) as tl) =>
      ((Z.land (snd b1) (Z.lor THIS_BLOCK_ALLOCATED IN_QUICK_LIST) =? 0)
       && (Z.land (snd b2) (Z.lor THIS_BLOCK_ALLOCATED IN_QUICK_LIST) =? 0)
       && (fst (fst b1) + snd (fst b1) =? fst (fst b2)))
      || adjacent_free tl
  | _ => false
  end.

Definition splinter_sequence : M unit :=
  _ <- malloc' 8 ;;
  a <- malloc' 200 ;; free' a ;;;
  b <- malloc' 224 ;;
  _ <- malloc' 3760 ;;
  _ <- realloc' b 176 ;;
  _ <- malloc' 1 ;;
  e <- malloc' 5000 ;;
  free' e.

Definition walk_eqb (l1 l2 : list (Z * Z * Z)) : bool := bool_decide (l1 = l2).

Definition splinter_leaves_adjacent_free : bool :=
  returns splinter_sequence start
    (fun _ s =>
       walk_eqb (heap_blocks MAGIC HEAP_BASE FUEL s)
                [(HEAP_BASE + 40, 32, 1); (HEAP_BASE + 72, 192, 1);
                 (HEAP_BASE + 264, 32, 1);
                 (HEAP_BASE + 296, 3792, 0); (HEAP_BASE + 4088, 8192, 0)]
       && adjacent_free (heap_blocks MAGIC HEAP_BASE FUEL s)
       && list_eqb (free_blocks HEADS_BASE FUEL s) [HEAP_BASE + 4088]
       && (HEAP_BASE + 4088 + 8192 + 8 =? heap_end s)).

End MoreScenarios.

(** C2. The code adds the quick-list stacks on top of the heap walk, so a
    block sitting on a quick list is counted twice.  With one 32-byte block
    (payload 8) on a quick list and one live 128-byte block (payload 100),
    the allocated blocks total 108/160, but sf_fragmentation accumulates
    116/192.  With no quick-list block (S8) it returns 164/240. *)
Theorem C2_fragmentation_double_counts_quick_blocks :
  fragmentation_of_three 0 = true
  /\ fragmentation_with_quick_block 0 = true
  /\ fragmentation_of_three SAMPLE_MAGIC = true
  /\ fragmentation_with_quick_block SAMPLE_MAGIC = true.
Proof.
  repeat split; vm_compute; reflexivity.
Qed.

(** C3. mark_block_as_allocated clears IN_QUICK_LIST in the header of the
    block that follows the one it allocates.  After
    allocate(8); a = allocate(200); b = allocate(8); free(b); free(a), block
    b is on quick list 0 with both flags set; a further allocate(200)
    returns a again and leaves b on the quick list with only ALLOCATED
    set. *)
Theorem C3_allocate_clears_flag_of_next_quick_block :
  quick_block_loses_flag 0 = true
  /\ quick_block_loses_flag SAMPLE_MAGIC = true.
Proof.
  split; vm_compute; reflexivity.
Qed.

(** C5. When the very first page acquisition fails, the bootstrap sets the
    error sink but sf_malloc goes on: it searches the free lists whose
    sentinels were never initialised and dereferences a null link. *)
Theorem C5_bootstrap_failure_faults :
  bootstrap_without_pages 0 1 = Fault
  /\ bootstrap_without_pages SAMPLE_MAGIC 1 = Fault
  /\ bootstrap_without_pages SAMPLE_MAGIC 4096 = Fault.
Proof.
  repeat split; vm_compute; reflexivity.
Qed.

(** C8. sf_malloc marks a block it did not split with the requested size,
    not with the block's size, which orphans a 16-byte splinter whose first
    word is the stale header of an earlier free block.  After the calls of
    [splinter_sequence], all of which return, the heap walk meets a free
    block at offset 296 (3792 bytes) directly followed by the free block at
    offset 4088 (8192 bytes), which ends at the epilogue; only the second
    is on a free list. *)
Theorem C8_splinter_breaks_coalescing_invariant :
  splinter_leaves_adjacent_free 0 = true
  /\ splinter_leaves_adjacent_free SAMPLE_MAGIC = true.
Proof.
  split; vm_compute; reflexivity.
Qed.

(** ** Frame reasoning

    [keeps R m]: whenever [m] returns, the final state is related to the
    initial one by [R].  For a reflexive and transitive [R] that every
    elementary state change of a function respects, the function keeps it. *)

Definition keeps {A} (R : state -> state -> Prop) (m : M A) : Prop :=
  forall s a s', m s = Ret a s' -> R s s'.

Class Framing (R : state -> state -> Prop) : Prop := {
  R_refl : forall s, R s s;
  R_trans : forall s1 s2 s3, R s1 s2 -> R s2 s3 -> R s1 s3
}.

(** Relations insensitive to the memory and the quick-list array. *)
Class TagFraming (R : state -> state -> Prop) : Prop := {
  R_framing :: Framing R;
  R_mem : forall s m, R s (set_mem m s);
  R_quick : forall s q, R s (set_quick q s)
}.

(** Relations insensitive, in addition, to a growth of the heap and to an
    out-of-memory report. *)
Class ListFraming (R : state -> state -> Prop) : Prop := {
  R_tag :: TagFraming R;
  R_enomem : forall s, R s (set_errno ENOMEM s);
  R_grow :
    forall s n,
      avail s = S n ->
      R s (State (mem s) (heap_end s + PAGE_SZ) n (sf_quick_lists s)
                 (sf_current_payload s) (sf_peak_payload s) (sf_errno s))
}.

Section Frame.

Variable heap_start : Z.
Variable heads : Z.
Context {R : state -> state -> Prop}.

Section Pure.
Context {F : Framing R}.

Lemma keeps_ret {A} (a : A) : keeps R (ret a).
Proof. intros s a' s' H. inversion H; subst. apply R_refl. Qed.

Lemma keeps_abort {A} : keeps R (@abort A).
Proof. intros s a s' H. discriminate. Qed.

Lemma keeps_out_of_fuel {A} : keeps R (@out_of_fuel A).
Proof. intros s a s' H. discriminate. Qed.

Lemma keeps_get {A} (f : state -> A) : keeps R (get f).
Proof. intros s a s' H. inversion H; subst. apply R_refl. Qed.

Lemma keeps_bind {A B} (m : M A) (k : A -> M B) :
  keeps R m -> (forall a, keeps R (k a)) -> keeps R (bind m k).
Proof.
  intros Hm Hk s b s' H. unfold bind in H.
  destruct (m s) as [a s1| | |] eqn:E; try discriminate.
  eapply R_trans; [eapply Hm; eassumption | eapply Hk; eassumption].
Qed.

Lemma keeps_load (a : Z) : keeps R (load heap_start heads a).
Proof.
  intros s v s' H. unfold load in H.
  destruct (mapped heap_start heads a s); inversion H; subst. apply R_refl.
Qed.

Lemma keeps_modify (f : state -> state) :
  (forall s, R s (f s)) -> keeps R (modify f).
Proof. intros Hf s a s' H. inversion H; subst. apply Hf. Qed.

Lemma keeps_for_loop (n : nat) (body : Z -> M unit) :
  (forall i, keeps R (body i)) -> forall i, keeps R (for_loop n i body).
Proof.
  intros Hb. induction n as [|n IH]; intros i; simpl.
  - apply keeps_ret.
  - apply keeps_bind; [apply Hb | intros _; apply IH].
Qed.

End Pure.

Section Tags.
Context {F : TagFraming R}.

Lemma keeps_store (a v : Z) : keeps R (store heap_start heads a v).
Proof.
  intros s u s' H. unfold store in H.
  destruct (mapped heap_start heads a s); inversion H; subst. apply R_mem.
Qed.

Lemma keeps_set_quick_list (i : Z) (f : state -> qlist) :
  keeps R (modify (fun s => set_quick_list i (f s) s)).
Proof. apply keeps_modify. intros s. apply R_quick. Qed.

End Tags.

Context {F : ListFraming R}.

Lemma keeps_set_enomem : keeps R (modify (set_errno ENOMEM)).
Proof. apply keeps_modify. apply R_enomem. Qed.

Lemma keeps_sf_mem_grow : keeps R sf_mem_grow.
Proof.
  intros s a s' H. unfold sf_mem_grow in H.
  destruct (avail s) eqn:E; inversion H; subst;
    [apply R_refl | apply R_grow; exact E].
Qed.

End Frame.

(** One step of a frame proof: split a bind, close a primitive, or take a
    branch. *)
Ltac frame_step :=
  lazymatch goal with
  | |- keeps _ (bind _ _) => apply keeps_bind; [ | intros ? ]
  | |- keeps _ (ret _) => apply keeps_ret
  | |- keeps _ abort => apply keeps_abort
  | |- keeps _ out_of_fuel => apply keeps_out_of_fuel
  | |- keeps _ (get _) => apply keeps_get
  | |- keeps _ (load _ _ _) => apply keeps_load
  | |- keeps _ (store _ _ _ _) => apply keeps_store
  | |- keeps _ sf_mem_grow => apply keeps_sf_mem_grow
  | |- keeps _ (modify (set_errno ENOMEM)) => apply keeps_set_enomem
  | |- keeps _ (modify (set_quick_list _ _)) =>
      apply (keeps_set_quick_list _ (fun _ => _))
  | |- keeps _ (modify (fun s => set_quick_list _ _ s)) =>
      apply keeps_set_quick_list
  | |- keeps _ (if ?b then _ else _) => destruct b
  end.

Ltac frame := cbv zeta; repeat (frame_step; cbv zeta); try exact _.

Section FrameOfListHelpers.

Variable MAGIC : Z.
Variable heap_start : Z.
Variable heads : Z.
Context {R : state -> state -> Prop} {F : TagFraming R}.

Lemma keeps_insert_block_into_free_list (b : Z) :
  keeps R (insert_block_into_free_list MAGIC heap_start heads b).
Proof. unfold insert_block_into_free_list. frame. Qed.

Lemma keeps_remove_block_from_free_list (b : Z) :
  keeps R (remove_block_from_free_list heap_start heads b).
Proof. unfold remove_block_from_free_list. frame. Qed.

Lemma keeps_scan_free_list (fuel : nat) (sentinel cur req : Z) :
  keeps R (scan_free_list MAGIC heap_start heads fuel sentinel cur req).
Proof.
  revert cur. induction fuel as [|fuel IH]; intros cur; simpl; frame. apply IH.
Qed.

Lemma keeps_scan_free_lists (n fuel : nat) (idx req : Z) :
  keeps R (scan_free_lists MAGIC heap_start heads n fuel idx req).
Proof.
  revert idx. induction n as [|n IH]; intros idx; simpl; frame;
    try apply keeps_scan_free_list. apply IH.
Qed.

Lemma keeps_find_first_free_block_that_fits (fuel : nat) (req : Z) :
  keeps R (find_first_free_block_that_fits MAGIC heap_start heads fuel req).
Proof. apply keeps_scan_free_lists. Qed.

Lemma keeps_split_free_block_if_necessary (b need : Z) :
  keeps R (split_free_block_if_necessary MAGIC heap_start heads b need).
Proof.
  unfold split_free_block_if_necessary.
  frame; apply keeps_insert_block_into_free_list.
Qed.

Lemma keeps_coalesce_adjacent_free_blocks (b : Z) :
  keeps R (coalesce_adjacent_free_blocks MAGIC heap_start heads b).
Proof.
  unfold coalesce_adjacent_free_blocks, coalesce_with_predecessor,
    coalesce_with_successor.
  frame; apply keeps_remove_block_from_free_list.
Qed.

Lemma keeps_flush_quick_list (fuel : nat) (i : Z) :
  keeps R (flush_quick_list MAGIC heap_start heads fuel i).
Proof.
  induction fuel as [|fuel IH]; simpl; frame;
    first [ apply keeps_coalesce_adjacent_free_blocks
          | apply keeps_insert_block_into_free_list
          | apply IH ].
Qed.

Lemma keeps_push_on_quick_list (fuel : nat) (b payload size : Z) :
  keeps R (push_on_quick_list MAGIC heap_start heads fuel b payload size).
Proof.
  unfold push_on_quick_list. frame; apply keeps_flush_quick_list.
Qed.

Lemma keeps_release_to_free_list (b payload size : Z) :
  keeps R (release_to_free_list MAGIC heap_start heads b payload size).
Proof.
  unfold release_to_free_list.
  frame; first [ apply keeps_coalesce_adjacent_free_blocks
               | apply keeps_insert_block_into_free_list ].
Qed.

End FrameOfListHelpers.

Section FrameOfHelpers.

Variable MAGIC : Z.
Variable heap_start : Z.
Variable heads : Z.
Context {R : state -> state -> Prop} {F : ListFraming R}.

Lemma keeps_initialize_heap :
  keeps R (initialize_heap_during_first_call_to_sf_malloc MAGIC heap_start heads).
Proof.
  unfold initialize_heap_during_first_call_to_sf_malloc,
    initialize_all_free_list_sentinels, initialize_all_quick_lists.
  frame; try apply keeps_insert_block_into_free_list; try exact _.
  - apply keeps_for_loop; try exact _. intros i. frame.
  - apply keeps_for_loop; try exact _. intros i. frame.
Qed.

Lemma keeps_write_free_region_and_epilogue (b size : Z) :
  keeps R (write_free_region_and_epilogue MAGIC heap_start heads b size).
Proof.
  unfold write_free_region_and_epilogue.
  frame; apply keeps_insert_block_into_free_list; exact _.
Qed.

Lemma keeps_extend_heap_by_one_page :
  keeps R (extend_heap_by_one_page MAGIC heap_start heads).
Proof.
  unfold extend_heap_by_one_page.
  frame; first [ apply keeps_write_free_region_and_epilogue
               | apply keeps_remove_block_from_free_list ]; try exact _.
Qed.

Lemma keeps_extend_until_fit (n fuel : nat) (c req : Z) :
  keeps R (extend_until_fit MAGIC heap_start heads n fuel c req).
Proof.
  revert c. induction n as [|n IH]; intros c; simpl; frame;
    first [ apply keeps_extend_heap_by_one_page
          | apply keeps_find_first_free_block_that_fits
          | apply IH ]; try exact _.
Qed.

End FrameOfHelpers.

(** ** Two frame relations *)

(** The usage counter [sf_current_payload] is untouched. *)
Definition same_current (s s' : state) : Prop :=
  sf_current_payload s' = sf_current_payload s.

(** The error sink is untouched or holds out-of-memory. *)
Definition errno_kept_or_enomem (s s' : state) : Prop :=
  sf_errno s' = sf_errno s \/ sf_errno s' = ENOMEM.

#[local] Instance eq_framing : Framing (@eq state).
Proof. split; intros; congruence. Qed.

#[local] Instance same_current_framing : ListFraming same_current.
Proof.
  split; [split; [split|..] |..]; unfold same_current; intros; simpl; congruence.
Qed.

#[local] Instance errno_framing : ListFraming errno_kept_or_enomem.
Proof.
  split; [split; [split|..] |..]; unfold errno_kept_or_enomem; simpl; intros; auto.
  destruct H0 as [H0|H0]; [rewrite H0; assumption | right; assumption].
Qed.

(** ** Inversion of the monad's primitives *)

Section Inversion.

Variable heap_start : Z.
Variable heads : Z.

Lemma bind_inv {A B} (m : M A) (k : A -> M B) (s : state) (b : B) (s' : state) :
  bind m k s = Ret b s' ->
  exists a s1, m s = Ret a s1 /\ k a s1 = Ret b s'.
Proof.
  unfold bind. destruct (m s) as [a s1| | |]; try discriminate.
  intros H. exists a, s1. split; [reflexivity | exact H].
Qed.

Lemma keeps_bind_inv {A B} (R : state -> state -> Prop)
      (m : M A) (k : A -> M B) (s : state) (b : B) (s' : state) :
  keeps R m -> bind m k s = Ret b s' ->
  exists a s1, R s s1 /\ k a s1 = Ret b s'.
Proof.
  intros Hm H. apply bind_inv in H. destruct H as (a & s1 & H1 & H2).
  exists a, s1. split; [eapply Hm; exact H1 | exact H2].
Qed.

Lemma load_inv (a v : Z) (s s' : state) :
  load heap_start heads a s = Ret v s' ->
  s' = s /\ mapped heap_start heads a s = true /\ v = word s a.
Proof.
  unfold load, word. destruct (mapped heap_start heads a s); [|discriminate].
  intros H. inversion H; subst. auto.
Qed.

Lemma store_inv (a v : Z) (u : unit) (s s' : state) :
  store heap_start heads a v s = Ret u s' ->
  mapped heap_start heads a s = true /\ s' = set_mem (<[a := v]> (mem s)) s.
Proof.
  unfold store. destruct (mapped heap_start heads a s); [|discriminate].
  intros H. inversion H; subst. auto.
Qed.

Lemma load_mapped (a : Z) (s : state) :
  mapped heap_start heads a s = true ->
  load heap_start heads a s = Ret (word s a) s.
Proof. unfold load, word. intros ->. reflexivity. Qed.

Lemma mapped_set_mem (a : Z) (m : gmap Z Z) (s : state) :
  mapped heap_start heads a (set_mem m s) = mapped heap_start heads a s.
Proof. reflexivity. Qed.

Lemma word_set_mem_eq (a v : Z) (s : state) :
  word (set_mem (<[a := v]> (mem s)) s) a = v.
Proof. unfold word. simpl. rewrite lookup_insert_eq. reflexivity. Qed.

Lemma word_set_mem_ne (a b v : Z) (s : state) :
  a <> b -> word (set_mem (<[a := v]> (mem s)) s) b = word s b.
Proof. intros H. unfold word. simpl. rewrite lookup_insert_ne by exact H. reflexivity. Qed.

Lemma word_insert_ne (a b v : Z) (m : gmap Z Z) (s : state) :
  a <> b -> word (set_mem (<[a := v]> m) s) b = word (set_mem m s) b.
Proof.
  intros H. unfold word. simpl. rewrite lookup_insert_ne by exact H. reflexivity.
Qed.

Lemma word_insert_eq (a v : Z) (m : gmap Z Z) (s : state) :
  word (set_mem (<[a := v]> m) s) a = v.
Proof. unfold word. simpl. rewrite lookup_insert_eq. reflexivity. Qed.


End Inversion.

(** ** Arithmetic of tags *)

Lemma two64_pos : 0 < two64.
Proof. reflexivity. Qed.

Lemma w64_small (x : Z) : 0 <= x < two64 -> w64 x = x.
Proof. intros H. unfold w64. apply Z.mod_small. exact H. Qed.


Lemma padd_ne (c d : Z) : 0 <= c < two64 -> 0 < d < two64 -> padd c d <> c.
Proof.
  intros Hc Hd E. unfold padd, w64 in E.
  assert (H : (c + d) mod two64 = c mod two64) by (rewrite E; symmetry; apply Z.mod_small; exact Hc).
  pose proof two64_pos.
  apply Z.cong_iff_ex in H. destruct H as [k Hk].
  assert (Hd' : d = two64 * k) by lia.
  assert (Hk' : k <= 0 \/ 1 <= k) by lia.
  destruct Hk'; nia.
Qed.

Lemma psub_padd_ne (c d : Z) :
  0 <= c < two64 -> 8 < d < two64 -> psub (padd c d) 8 <> c.
Proof.
  intros Hc Hd E. unfold psub, padd, w64 in E.
  rewrite Zminus_mod_idemp_l in E.
  replace (c + d - 8) with (c + (d - 8)) in E by lia.
  apply (padd_ne c (d - 8)); [exact Hc | lia | exact E].
Qed.

Lemma psub_ne (x d : Z) : 0 <= x < two64 -> 0 < d < two64 -> psub x d <> x.
Proof.
  intros Hx Hd E. unfold psub, w64 in E.
  assert (H : (x - d) mod two64 = x mod two64)
    by (rewrite E; symmetry; apply Z.mod_small; exact Hx).
  apply Z.cong_iff_ex in H. destruct H as [k Hk].
  assert (Hk' : k <= -1 \/ 0 <= k) by lia.
  pose proof two64_pos. destruct Hk'; nia.
Qed.

Lemma padd_range (p n : Z) : 0 <= padd p n < two64.
Proof. unfold padd, w64. apply Z.mod_pos_bound. apply two64_pos. Qed.


Lemma lxor_cancel (x m : Z) : Z.lxor (Z.lxor x m) m = x.
Proof. rewrite Z.lxor_assoc, Z.lxor_nilpotent, Z.lxor_0_r. reflexivity. Qed.

Lemma land_NOT_0xF (x : Z) : Z.land x NOT_0xF = 16 * (x / 16).
Proof.
  unfold NOT_0xF. change 15 with (Z.ones 4).
  rewrite <- Z.ldiff_land, Z.ldiff_ones_r by lia.
  rewrite Z.shiftr_div_pow2, Z.shiftl_mul_pow2 by lia.
  change (2 ^ 4) with 16. lia.
Qed.

Lemma calculate_aligned_block_size_bounds (n : Z) :
  0 < n <= 4294967264 ->
  32 <= calculate_aligned_block_size n < 4294967296.
Proof.
  intros H. unfold calculate_aligned_block_size.
  rewrite (w64_small (n + 8)) by (unfold two64; lia).
  rewrite (w64_small (n + 8 + 8)) by (unfold two64; lia).
  rewrite (w64_small (n + 8 + 8 + 15)) by (unfold two64; lia).
  rewrite land_NOT_0xF.
  destruct (16 * ((n + 8 + 8 + 15) / 16) <? 32) eqn:E.
  - lia.
  - apply Z.ltb_ge in E. split; [exact E|].
    pose proof (Z.mul_div_le (n + 8 + 8 + 15) 16). lia.
Qed.


(** ** What mark_block_as_allocated leaves behind *)

Section MarkSpec.

Variable MAGIC : Z.
Variable heap_start : Z.
Variable heads : Z.

Lemma add_payload_current (n : Z) (s : state) :
  sf_current_payload (add_payload n s) = w64 (sf_current_payload s + n).
Proof.
  unfold add_payload. simpl.
  destruct (w64 (sf_current_payload s + n) >? sf_peak_payload s); reflexivity.
Qed.

Lemma add_payload_mem (n : Z) (s : state) :
  mem (add_payload n s) = mem s /\ heap_end (add_payload n s) = heap_end s.
Proof.
  unfold add_payload. simpl.
  destruct (w64 (sf_current_payload s + n) >? sf_peak_payload s); split; reflexivity.
Qed.

Lemma mark_block_as_allocated_spec (c fs n : Z) (s s' : state) (u : unit) :
  0 <= c < two64 -> 8 < fs < two64 ->
  mark_block_as_allocated MAGIC heap_start heads c fs n s = Ret u s' ->
  mapped heap_start heads c s' = true
  /\ sf_current_payload s' = w64 (sf_current_payload s + n)
  /\ exists flags,
       Z.lxor (word s' c) MAGIC =
       Z.lor (w64 (Z.shiftl n 32))
             (Z.lor fs (Z.lor (Z.land flags IN_QUICK_LIST) THIS_BLOCK_ALLOCATED)).
Proof.
  intros Hc Hfs H. unfold mark_block_as_allocated in H.
  apply bind_inv in H. destruct H as (h & s1 & H1 & H).
  apply load_inv in H1. destruct H1 as (-> & Hm & ->).
  apply bind_inv in H. destruct H as (u1 & s2 & H2 & H).
  apply store_inv in H2. destruct H2 as (_ & ->).
  apply bind_inv in H. destruct H as (h' & s3 & H3 & H).
  apply load_inv in H3. destruct H3 as (-> & _ & ->).
  rewrite word_set_mem_eq in H.
  apply bind_inv in H. destruct H as (u2 & s4 & H4 & H).
  apply store_inv in H4. destruct H4 as (_ & ->).
  apply bind_inv in H. destruct H as (e & s5 & H5 & H).
  inversion H5; subst e s5; clear H5.
  apply bind_inv in H. destruct H as (u3 & s6 & H6 & H).
  inversion H; subst s'; clear H.
  set (flags := Z.land (Z.land (Z.lxor (word s c) MAGIC) MASK32) 15) in *.
  set (tag := Z.lxor (Z.lor (w64 (Z.shiftl n 32))
                (Z.lor fs (Z.lor (Z.land flags IN_QUICK_LIST) THIS_BLOCK_ALLOCATED)))
                MAGIC) in *.
  set (sa := set_mem (<[c := tag]> (mem s)) s) in *.
  set (sb := set_mem (<[psub (padd c fs) 8 := tag]> (mem sa)) sa) in *.
  assert (Hfoot : psub (padd c fs) 8 <> c) by (apply psub_padd_ne; assumption).
  assert (Hnext : padd c fs <> c) by (apply padd_ne; [assumption | lia]).
  assert (Hsb : word sb c = tag).
  { unfold sb. rewrite word_set_mem_ne by exact Hfoot. apply word_set_mem_eq. }
  assert (H6' : mapped heap_start heads c s6 = true
                /\ word s6 c = tag
                /\ sf_current_payload s6 = sf_current_payload s).
  { match type of H6 with context [if ?b then _ else _] => destruct b end.
    - apply bind_inv in H6. destruct H6 as (nh & s7 & H7 & H6).
      apply load_inv in H7. destruct H7 as (-> & _ & ->).
      apply store_inv in H6. destruct H6 as (_ & ->).
      rewrite word_set_mem_ne by exact Hnext. auto.
    - inversion H6; subst s6. auto. }
  destruct H6' as (Hm6 & Hw6 & Hc6).
  destruct (add_payload_mem n s6) as [Hmem Hend].
  split; [|split].
  - unfold mapped, in_heap in *. rewrite Hend. exact Hm6.
  - rewrite add_payload_current, Hc6. reflexivity.
  - exists flags. unfold word in *. rewrite Hmem, Hw6. unfold tag.
    apply lxor_cancel.
Qed.

End MarkSpec.

(** ** The shape of a successful sf_malloc *)

Section MallocShape.

Variable MAGIC : Z.
Variable heap_start : Z.
Variable heads : Z.

Lemma mark_block_as_allocated_reads_header (c fs n : Z) (s s' : state) (u : unit) :
  mark_block_as_allocated MAGIC heap_start heads c fs n s = Ret u s' ->
  mapped heap_start heads c s = true /\ heap_end s' = heap_end s.
Proof.
  intros H. unfold mark_block_as_allocated in H.
  apply bind_inv in H. destruct H as (h & s1 & H1 & H).
  apply load_inv in H1. destruct H1 as (-> & Hm & ->).
  split; [exact Hm|].
  apply bind_inv in H. destruct H as (u1 & s2 & H2 & H).
  apply store_inv in H2. destruct H2 as (_ & ->).
  apply bind_inv in H. destruct H as (h' & s3 & H3 & H).
  apply load_inv in H3. destruct H3 as (-> & _ & ->).
  apply bind_inv in H. destruct H as (u2 & s4 & H4 & H).
  apply store_inv in H4. destruct H4 as (_ & ->).
  apply bind_inv in H. destruct H as (e & s5 & H5 & H).
  inversion H5; subst e s5; clear H5.
  apply bind_inv in H. destruct H as (u3 & s6 & H6 & H).
  inversion H; subst s'; clear H.
  destruct (add_payload_mem n s6) as [_ ->].
  match type of H6 with context [if ?b then _ else _] => destruct b end.
  - apply bind_inv in H6. destruct H6 as (nh & s7 & H7 & H6).
    apply load_inv in H7. destruct H7 as (-> & _ & ->).
    apply store_inv in H6. destruct H6 as (_ & ->). reflexivity.
  - inversion H6; subst s6. reflexivity.
Qed.

(** A call that returns a non-null pointer ends in mark_block_as_allocated,
    and nothing before that touches sf_current_payload. *)
Lemma sf_malloc_shape (fuel : nat) (n p : Z) (s s1 : state) :
  n <> 0 -> p <> NULL ->
  sf_malloc MAGIC heap_start heads fuel n s = Ret p s1 ->
  exists c sA u,
    same_current s sA
    /\ mark_block_as_allocated MAGIC heap_start heads c
         (calculate_aligned_block_size n) n sA = Ret u s1
    /\ p = padd c 8.
Proof.
  intros Hn Hp H. unfold sf_malloc in H.
  apply Z.eqb_neq in Hn. rewrite Hn in H.
  apply (keeps_bind_inv same_current) in H; [|apply keeps_get].
  destruct H as (e & sa & Ra & H).
  apply (keeps_bind_inv same_current) in H;
    [|destruct (heap_start =? e); [apply keeps_initialize_heap | apply keeps_ret]].
  destruct H as (u0 & sb & Rb & H).
  apply (keeps_bind_inv same_current) in H;
    [|apply keeps_find_first_free_block_that_fits].
  destruct H as (c0 & sc & Rc & H).
  apply (keeps_bind_inv same_current) in H; [|apply keeps_extend_until_fit].
  destruct H as (c & sd & Rd & H).
  destruct (c =? NULL).
  { inversion H; subst p. contradiction. }
  apply (keeps_bind_inv same_current) in H;
    [|apply keeps_split_free_block_if_necessary].
  destruct H as (u1 & se & Re & H).
  apply (keeps_bind_inv same_current) in H;
    [|apply keeps_remove_block_from_free_list].
  destruct H as (u2 & sf & Rf & H).
  apply bind_inv in H. destruct H as (u3 & sg & Hmark & H).
  inversion H; subst p sg; clear H.
  exists c, sf, u3. split; [|split; [exact Hmark | reflexivity]].
  unfold same_current in *. congruence.
  all: exact _.
Qed.

(** Once sf_free has passed its validation and adjusted the counter, nothing
    it does touches sf_current_payload again. *)
Lemma sf_free_current (fuel : nat) (pp : Z) (s s2 : state) (u : unit) :
  pp <> NULL ->
  mapped heap_start heads (psub pp 8) s = true ->
  sf_free MAGIC heap_start heads fuel pp s = Ret u s2 ->
  sf_current_payload s2 =
  w64 (sf_current_payload s - Z.shiftr (Z.lxor (word s (psub pp 8)) MAGIC) 32).
Proof.
  intros Hp Hm H. unfold sf_free in H.
  apply Z.eqb_neq in Hp. rewrite Hp in H.
  unfold bind at 1 in H. rewrite (load_mapped _ _ _ _ Hm) in H.
  repeat match type of H with
         | (if ?b then abort else _) _ = _ => destruct b; [discriminate|]
         end.
  apply bind_inv in H. destruct H as (e & sa & Ha & H).
  inversion Ha; subst e sa; clear Ha.
  match type of H with
  | (if ?b then abort else _) _ = _ => destruct b; [discriminate|]
  end.
  apply bind_inv in H. destruct H as (u1 & sb & Hb & H).
  inversion Hb; subst sb; clear Hb.
  assert (K : same_current
                (set_current
                   (w64 (sf_current_payload s
                         - Z.shiftr (Z.lxor (word s (psub pp 8)) MAGIC) 32)) s) s2).
  { match type of H with
    | (if ?b then _ else _) _ = _ => destruct b
    end.
    - eapply keeps_push_on_quick_list; first [exact H | exact _].
    - eapply keeps_release_to_free_list; first [exact H | exact _]. }
  exact K.
Qed.

End MallocShape.


(** ** Projections of an outcome, to name the results of concrete runs *)

Definition value_of {A} (o : outcome A) (d : A) : A :=
  match o with Ret a _ => a | _ => d end.
Definition state_of {A} (o : outcome A) (d : state) : state :=
  match o with Ret _ s => s | _ => d end.
Definition is_ret {A} (o : outcome A) : bool :=
  match o with Ret _ _ => true | _ => false end.




(** ** C6: requests whose size overflows *)

Section MallocErrno.

Variable MAGIC : Z.
Variable heap_start : Z.
Variable heads : Z.



End MallocErrno.








Section MarkOutcome.

Variable MAGIC : Z.
Variable heap_start : Z.
Variable heads : Z.








End MarkOutcome.





(** ** C4: what sf_free validates *)






(** Six live 32-byte blocks, five of them then freed: quick list 0 is full. *)
Definition fill_quick_list_0 (MAGIC : Z) : M Z :=
  a <- malloc_ MAGIC 8 ;; b <- malloc_ MAGIC 8 ;; c <- malloc_ MAGIC 8 ;;
  d <- malloc_ MAGIC 8 ;; e <- malloc_ MAGIC 8 ;; p <- malloc_ MAGIC 8 ;;
  free_ MAGIC a ;;; free_ MAGIC b ;;; free_ MAGIC c ;;;
  free_ MAGIC d ;;; free_ MAGIC e ;;; ret p.






(** ** C7: what sf_realloc validates *)

(** C7, amended.  For every non-null pointer and positive new size,
    reallocate makes its own two tests -- the pointer lies in
    [heap_start + 40, heap_end), and the header has ALLOCATED set and
    IN_QUICK_LIST clear (it tests neither the block size nor anything else
    that free tests) -- and when one of them fails it sets the error sink to
    invalid-argument and returns null, leaving the heap, the free lists, the
    quick lists and the usage counters unchanged. *)
Theorem C7_realloc_rejects_without_side_effect :
  forall (MAGIC heap_start heads : Z) (fuel : nat) (pp rsize : Z) (s : state),
    pp <> NULL -> rsize <> 0 ->
    realloc_range_fails heap_start pp s = true
    \/ (mapped heap_start heads (psub pp 8) s = true
        /\ realloc_flags_fail (Z.lxor (word s (psub pp 8)) MAGIC) = true) ->
    exists s',
      sf_realloc MAGIC heap_start heads fuel pp rsize s = Ret NULL s'
      /\ sf_errno s' = EINVAL
      /\ mem s' = mem s
      /\ heap_end s' = heap_end s
      /\ sf_quick_lists s' = sf_quick_lists s
      /\ sf_current_payload s' = sf_current_payload s
      /\ sf_peak_payload s' = sf_peak_payload s.
Proof.
  intros MAGIC heap_start heads fuel pp rsize s Hp Hr Hfail.
  exists (set_errno EINVAL s). split; [|repeat split].
  unfold sf_realloc. apply Z.eqb_neq in Hp. apply Z.eqb_neq in Hr.
  rewrite Hp, Hr. unfold bind at 1, get.
  destruct (realloc_range_fails heap_start pp s) eqn:Erange; [reflexivity|].
  destruct Hfail as [Hfail | [Hm Hflags]]; [discriminate Hfail|].
  unfold bind at 1. rewrite (load_mapped _ _ _ _ Hm), Hflags. reflexivity.
Qed.

Lemma C7_witness :
  let s := state_of (malloc_ SAMPLE_MAGIC 4 (fresh HEAP_BASE 37)) (fresh HEAP_BASE 37) in
  exists s', realloc_ SAMPLE_MAGIC (HEAP_BASE + 16) 8 s = Ret NULL s'
             /\ sf_errno s' = EINVAL /\ mem s' = mem s.
Proof.
  intros s.
  destruct (C7_realloc_rejects_without_side_effect
              SAMPLE_MAGIC HEAP_BASE HEADS_BASE FUEL (HEAP_BASE + 16) 8 s)
    as (s' & H1 & H2 & H3 & _).
  - vm_compute. discriminate.
  - discriminate.
  - left. vm_compute. reflexivity.
  - exists s'. split; [exact H1 | split; [exact H2 | exact H3]].
Defined.

(** The pointer to the prologue's payload: sf_free validates it and pushes
    the prologue on a quick list, sf_realloc rejects it; the two functions
    do not make the same checks. *)
Definition free_and_realloc_disagree (MAGIC : Z) : bool :=
  returns (malloc_ MAGIC 4) (fresh HEAP_BASE 37)
    (fun _ s =>
       is_ret (free_ MAGIC (HEAP_BASE + 16) s)
       && returns (realloc_ MAGIC (HEAP_BASE + 16) 8) s
            (fun r s' => (r =? NULL) && (sf_errno s' =? EINVAL))).

Lemma C7_counterexample :
  free_and_realloc_disagree 0 = true
  /\ free_and_realloc_disagree SAMPLE_MAGIC = true.
Proof. split; vm_compute; reflexivity. Qed.

(** ** C10: the observability functions are read-only *)

Section Observability.

Variable MAGIC : Z.
Variable heap_start : Z.
Variable heads : Z.

Lemma walk_heap_pure (fuel : nat) (current : Z) (acc : Z * Z) :
  keeps eq (walk_heap MAGIC heap_start heads fuel current acc).
Proof.
  revert current acc. induction fuel as [|fuel IH]; intros current acc; simpl.
  - frame.
  - frame. apply IH.
Qed.

Lemma walk_quick_list_pure (fuel : nat) (q : Z) (acc : Z * Z) :
  keeps eq (walk_quick_list MAGIC heap_start heads fuel q acc).
Proof.
  revert q acc. induction fuel as [|fuel IH]; intros q acc; simpl.
  - frame.
  - frame. apply IH.
Qed.

Lemma walk_quick_lists_pure (n fuel : nat) (i : Z) (acc : Z * Z) :
  keeps eq (walk_quick_lists MAGIC heap_start heads n fuel i acc).
Proof.
  revert i acc. induction n as [|n IH]; intros i acc; simpl.
  - frame.
  - frame; [apply walk_quick_list_pure | apply IH].
Qed.

Lemma sf_fragmentation_pure (fuel : nat) :
  keeps eq (sf_fragmentation MAGIC heap_start heads fuel).
Proof.
  unfold sf_fragmentation, fragmentation_totals.
  frame; [apply walk_heap_pure | apply walk_quick_lists_pure].
Qed.

Lemma sf_utilization_returns (s : state) :
  exists q, sf_utilization heap_start s = Ret q s.
Proof.
  unfold sf_utilization, bind, get, ret.
  destruct (heap_start =? heap_end s); [eexists; reflexivity|].
  destruct (w64 (heap_end s - heap_start) =? 0); eexists; reflexivity.
Qed.

End Observability.

(** C10.  In every state, sf_utilization returns and returns the state it
    was called in, and whenever sf_fragmentation returns it returns the
    state it was called in: heap words, free lists, quick lists,
    sf_current_payload, sf_peak_payload and the error sink are all
    unchanged. *)
Theorem C10_observers_leave_the_state_unchanged :
  forall (MAGIC heap_start heads : Z) (fuel : nat) (s : state),
    (exists q, sf_utilization heap_start s = Ret q s)
    /\ (forall q s', sf_fragmentation MAGIC heap_start heads fuel s = Ret q s' ->
                     s' = s).
Proof.
  intros MAGIC heap_start heads fuel s. split.
  - apply sf_utilization_returns.
  - intros q s' H. symmetry.
    exact (sf_fragmentation_pure MAGIC heap_start heads fuel s q s' H).
Qed.

Lemma C10_witness :
  let s := state_of ((_ <- malloc_ SAMPLE_MAGIC 24 ;; x <- malloc_ SAMPLE_MAGIC 8 ;;
                      free_ SAMPLE_MAGIC x) (fresh HEAP_BASE 37)) (fresh HEAP_BASE 37) in
  let r := sf_fragmentation SAMPLE_MAGIC HEAP_BASE HEADS_BASE FUEL s in
  is_ret r = true /\ state_of r (fresh HEAP_BASE 37) = s.
Proof.
  intros s r. split.
  - vm_compute. reflexivity.
  - destruct (C10_observers_leave_the_state_unchanged
                SAMPLE_MAGIC HEAP_BASE HEADS_BASE FUEL s) as [_ H].
    apply (H (value_of r 0%Q)). vm_compute. reflexivity.
Defined.

(** * Further properties of the code

    The rest of the development states properties of the functions of
    sfmm.c that hold in every state, not only along the scenarios above. *)

(** ** get_payload_size *)

Definition get_payload_size (MAGIC heap_start heads : Z) (block : Z) : M Z :=
  h <- load heap_start heads block ;;
  ret (Z.shiftr (Z.lxor h MAGIC) 32).

(** ** Size classes: get_free_list_index_for_size *)

Lemma index_loop_S (n : nat) (cls idx total : Z) :
  index_loop (S n) cls idx total =
  if (cls <? total) && (idx <? NUM_FREE_LISTS - 1)
  then index_loop n (w64 (Z.shiftl cls 1)) (idx + 1) total
  else idx.
Proof. reflexivity. Qed.

(** The thresholds of the ten classes, as the loop computes them. *)
Lemma get_free_list_index_for_size_cases (s : Z) :
  get_free_list_index_for_size s =
  if s <=? 32 then 0 else if s <=? 64 then 1 else if s <=? 128 then 2
  else if s <=? 256 then 3 else if s <=? 512 then 4 else if s <=? 1024 then 5
  else if s <=? 2048 then 6 else if s <=? 4096 then 7 else if s <=? 8192 then 8
  else 9.
Proof.
  unfold get_free_list_index_for_size.
  destruct (Z.leb_spec s 32) as [H0|H0]; [reflexivity|].
  change (Z.to_nat NUM_FREE_LISTS) with 10%nat.
  rewrite index_loop_S.
  destruct (Z.ltb_spec 32 s) as [H1|H1]; [|lia].
  change ((true && (0 <? NUM_FREE_LISTS - 1))) with true. cbv iota.
  change (w64 (Z.shiftl 32 1)) with 64. change (0 + 1) with 1.
  destruct (Z.leb_spec s 64) as [L1|L1].
  { rewrite index_loop_S. destruct (Z.ltb_spec 64 s); [lia | reflexivity]. }
  rewrite index_loop_S. destruct (Z.ltb_spec 64 s) as [H2|H2]; [|lia].
  change ((true && (1 <? NUM_FREE_LISTS - 1))) with true. cbv iota.
  change (w64 (Z.shiftl 64 1)) with 128. change (1 + 1) with 2.
  destruct (Z.leb_spec s 128) as [L2|L2].
  { rewrite index_loop_S. destruct (Z.ltb_spec 128 s); [lia | reflexivity]. }
  rewrite index_loop_S. destruct (Z.ltb_spec 128 s) as [H3|H3]; [|lia].
  change ((true && (2 <? NUM_FREE_LISTS - 1))) with true. cbv iota.
  change (w64 (Z.shiftl 128 1)) with 256. change (2 + 1) with 3.
  destruct (Z.leb_spec s 256) as [L3|L3].
  { rewrite index_loop_S. destruct (Z.ltb_spec 256 s); [lia | reflexivity]. }
  rewrite index_loop_S. destruct (Z.ltb_spec 256 s) as [H4|H4]; [|lia].
  change ((true && (3 <? NUM_FREE_LISTS - 1))) with true. cbv iota.
  change (w64 (Z.shiftl 256 1)) with 512. change (3 + 1) with 4.
  destruct (Z.leb_spec s 512) as [L4|L4].
  { rewrite index_loop_S. destruct (Z.ltb_spec 512 s); [lia | reflexivity]. }
  rewrite index_loop_S. destruct (Z.ltb_spec 512 s) as [H5|H5]; [|lia].
  change ((true && (4 <? NUM_FREE_LISTS - 1))) with true. cbv iota.
  change (w64 (Z.shiftl 512 1)) with 1024. change (4 + 1) with 5.
  destruct (Z.leb_spec s 1024) as [L5|L5].
  { rewrite index_loop_S. destruct (Z.ltb_spec 1024 s); [lia | reflexivity]. }
  rewrite index_loop_S. destruct (Z.ltb_spec 1024 s) as [H6|H6]; [|lia].
  change ((true && (5 <? NUM_FREE_LISTS - 1))) with true. cbv iota.
  change (w64 (Z.shiftl 1024 1)) with 2048. change (5 + 1) with 6.
  destruct (Z.leb_spec s 2048) as [L6|L6].
  { rewrite index_loop_S. destruct (Z.ltb_spec 2048 s); [lia | reflexivity]. }
  rewrite index_loop_S. destruct (Z.ltb_spec 2048 s) as [H7|H7]; [|lia].
  change ((true && (6 <? NUM_FREE_LISTS - 1))) with true. cbv iota.
  change (w64 (Z.shiftl 2048 1)) with 4096. change (6 + 1) with 7.
  destruct (Z.leb_spec s 4096) as [L7|L7].
  { rewrite index_loop_S. destruct (Z.ltb_spec 4096 s); [lia | reflexivity]. }
  rewrite index_loop_S. destruct (Z.ltb_spec 4096 s) as [H8|H8]; [|lia].
  change ((true && (7 <? NUM_FREE_LISTS - 1))) with true. cbv iota.
  change (w64 (Z.shiftl 4096 1)) with 8192. change (7 + 1) with 8.
  destruct (Z.leb_spec s 8192) as [L8|L8].
  { rewrite index_loop_S. destruct (Z.ltb_spec 8192 s); [lia | reflexivity]. }
  rewrite index_loop_S. destruct (Z.ltb_spec 8192 s) as [H9|H9]; [|lia].
  change ((true && (8 <? NUM_FREE_LISTS - 1))) with true. cbv iota.
  change (w64 (Z.shiftl 8192 1)) with 16384. change (8 + 1) with 9.
  rewrite index_loop_S.
  change (9 <? NUM_FREE_LISTS - 1) with false. rewrite andb_false_r. reflexivity.
Qed.

(** X1. The index returned for a block size is the smallest class [i] of
    0..9 with [size <= 32 * 2^i], and the last class, 9, when there is
    none: class 0 holds sizes up to 32, class [i] sizes in
    (32 * 2^(i-1), 32 * 2^i], class 9 everything above 8192.  The index
    is always a valid index of sf_free_list_heads. *)
Theorem size_class_is_smallest_adequate :
  forall s : Z,
    0 <= get_free_list_index_for_size s <= 9
    /\ (get_free_list_index_for_size s < 9 ->
        s <= 32 * 2 ^ get_free_list_index_for_size s)
    /\ (forall j, 0 <= j < get_free_list_index_for_size s -> 32 * 2 ^ j < s).
Proof.
  intros s. rewrite get_free_list_index_for_size_cases.
  repeat match goal with
         | |- context [if ?a <=? ?b then _ else _] => destruct (Z.leb_spec a b)
         end;
    (split; [lia | split; [intros Hlt; simpl; lia |]]);
    intros j Hj;
    assert (Hc : j = 0 \/ j = 1 \/ j = 2 \/ j = 3 \/ j = 4 \/ j = 5
                 \/ j = 6 \/ j = 7 \/ j = 8) by lia;
    repeat destruct Hc as [Hc|Hc]; subst j; simpl; lia.
Qed.

(** ** Aligned sizes: calculate_aligned_block_size *)

Lemma calculate_aligned_block_size_props (n : Z) :
    0 <= n <= two64 - 32 ->
    calculate_aligned_block_size n mod 16 = 0
    /\ 32 <= calculate_aligned_block_size n
    /\ n + 16 <= calculate_aligned_block_size n
    /\ (calculate_aligned_block_size n = 32
        \/ calculate_aligned_block_size n < n + 32).
Proof.
  intros H. unfold calculate_aligned_block_size.
  rewrite (w64_small (n + 8)) by (unfold two64 in *; lia).
  rewrite (w64_small (n + 8 + 8)) by (unfold two64 in *; lia).
  rewrite (w64_small (n + 8 + 8 + 15)) by (unfold two64 in *; lia).
  rewrite land_NOT_0xF.
  pose proof (Z.div_mod (n + 8 + 8 + 15) 16 ltac:(lia)) as Hd.
  pose proof (Z.mod_pos_bound (n + 8 + 8 + 15) 16 ltac:(lia)) as Hm.
  destruct (16 * ((n + 8 + 8 + 15) / 16) <? 32) eqn:E.
  - apply Z.ltb_lt in E. repeat split; try reflexivity; lia.
  - apply Z.ltb_ge in E. repeat split; try lia.
    rewrite Z.mul_comm. apply Z_mod_mult.
Qed.

(** X2. As long as the addition does not overflow, the block size computed for
    a payload of [n] bytes is a multiple of 16, at least 32, leaves room
    for the payload plus header and footer ([n + 16]), and is the least
    such value: it is 32 or less than 16 bytes above [n + 16]. *)
Theorem aligned_block_size_is_least_fit :
  forall n : Z,
    0 <= n <= two64 - 32 ->
    calculate_aligned_block_size n mod 16 = 0
    /\ 32 <= calculate_aligned_block_size n
    /\ n + 16 <= calculate_aligned_block_size n
    /\ (calculate_aligned_block_size n = 32
        \/ calculate_aligned_block_size n < n + 32).
Proof. exact calculate_aligned_block_size_props. Qed.

Lemma aligned_block_size_is_least_fit_witness :
  calculate_aligned_block_size 100 = 128
  /\ 100 + 16 <= calculate_aligned_block_size 100 < 100 + 32.
Proof.
  destruct (aligned_block_size_is_least_fit 100) as (_ & _ & H3 & H4).
  - unfold two64. lia.
  - split; [reflexivity|]. split; [exact H3|].
    destruct H4 as [H4|H4]; [discriminate H4 | exact H4].
Defined.

(** ** First fit: find_first_free_block_that_fits *)

Section FirstFit.

Variable MAGIC : Z.
Variable heap_start : Z.
Variable heads : Z.

(** The header of [r] can be read and decodes to a size of at least
    [required] (the comparison the scan makes). *)
Definition fits (s : state) (required r : Z) : Prop :=
  mapped heap_start heads r s = true
  /\ required <= Z.land (Z.lxor (word s r) MAGIC) NOT_0xF.

Lemma scan_free_list_sound (fuel : nat) (sentinel cur required : Z)
      (s s' : state) (r : Z) :
  scan_free_list MAGIC heap_start heads fuel sentinel cur required s = Ret r s' ->
  s' = s /\ (r = NULL \/ fits s required r).
Proof.
  revert cur s. induction fuel as [|fuel IH]; intros cur s H; simpl in H.
  - discriminate H.
  - destruct (cur =? sentinel).
    + inversion H; subst. auto.
    + apply bind_inv in H. destruct H as (h & s1 & H1 & H).
      apply load_inv in H1. destruct H1 as (-> & Hm & ->).
      cbv zeta in H.
      destruct (Z.land (Z.lxor (word s cur) MAGIC) NOT_0xF >=? required) eqn:E.
      * inversion H; subst. split; [reflexivity|]. right. split; [exact Hm|].
        rewrite Z.geb_leb in E. apply Z.leb_le in E. exact E.
      * apply bind_inv in H. destruct H as (n & s2 & H2 & H).
        apply load_inv in H2. destruct H2 as (-> & _ & ->).
        apply IH in H. exact H.
Qed.

Lemma scan_free_lists_sound (n fuel : nat) (idx required : Z)
      (s s' : state) (r : Z) :
  scan_free_lists MAGIC heap_start heads n fuel idx required s = Ret r s' ->
  s' = s /\ (r = NULL \/ fits s required r).
Proof.
  revert idx s. induction n as [|n IH]; intros idx s H; simpl in H.
  - inversion H; subst. auto.
  - destruct (idx <? NUM_FREE_LISTS).
    + cbv zeta in H.
      apply bind_inv in H. destruct H as (first & s1 & H1 & H).
      apply load_inv in H1. destruct H1 as (-> & _ & ->).
      apply bind_inv in H. destruct H as (r1 & s2 & H2 & H).
      apply scan_free_list_sound in H2. destruct H2 as [-> Hr1].
      destruct (r1 =? NULL).
      * apply IH in H. exact H.
      * inversion H; subst. auto.
    + inversion H; subst. auto.
Qed.

End FirstFit.

(** X3. The first-fit search only reads: it returns the state it was called in.
    A block it returns is never too small: its header is readable and
    decodes to at least the required size. *)
Theorem first_fit_is_read_only_and_sound :
  forall (MAGIC heap_start heads : Z) (fuel : nat) (required : Z)
         (s s' : state) (r : Z),
    find_first_free_block_that_fits MAGIC heap_start heads fuel required s
    = Ret r s' ->
    s' = s /\ (r <> NULL -> fits MAGIC heap_start heads s required r).
Proof.
  intros MAGIC heap_start heads fuel required s s' r H.
  unfold find_first_free_block_that_fits in H.
  apply scan_free_lists_sound in H. destruct H as [-> [H|H]].
  - split; [reflexivity|]. intros Hr. contradiction.
  - split; [reflexivity|]. intros _. exact H.
Qed.

Lemma first_fit_is_read_only_and_sound_witness :
  let s := state_of (malloc_ SAMPLE_MAGIC 4 (fresh HEAP_BASE 37)) (fresh HEAP_BASE 37) in
  let r := value_of (find_first_free_block_that_fits
                       SAMPLE_MAGIC HEAP_BASE HEADS_BASE FUEL 48 s) NULL in
  r = HEAP_BASE + 72 /\ fits SAMPLE_MAGIC HEAP_BASE HEADS_BASE s 48 r.
Proof.
  intros s r. split; [vm_compute; reflexivity|].
  destruct (first_fit_is_read_only_and_sound
              SAMPLE_MAGIC HEAP_BASE HEADS_BASE FUEL 48 s s r) as [_ H].
  - vm_compute. reflexivity.
  - apply H. vm_compute. discriminate.
Defined.

(** ** Frames of the public operations *)

(** Relations that the counter update of mark_block_as_allocated respects. *)
Class MallocFraming (R : state -> state -> Prop) : Prop := {
  R_list :: ListFraming R;
  R_add : forall s n, R s (add_payload n s)
}.

(** Relations that the counter update of sf_free respects. *)
Class FreeFraming (R : state -> state -> Prop) : Prop := {
  R_free_tag :: TagFraming R;
  R_current : forall s c, R s (set_current c s)
}.

(** Relations that every state change of the three operations respects. *)
Class PublicFraming (R : state -> state -> Prop) : Prop := {
  R_malloc :: MallocFraming R;
  R_free :: FreeFraming R;
  R_replace : forall s a b, R s (replace_payload a b s);
  R_einval : forall s, R s (set_errno EINVAL s)
}.

(** The heap grows by exactly one page for each page the provider hands
    out, and not otherwise. *)
Definition pages_conserved (s s' : state) : Prop :=
  heap_end s' = heap_end s + PAGE_SZ * (Z.of_nat (avail s) - Z.of_nat (avail s'))
  /\ (avail s' <= avail s)%nat.

(** The high-water mark does not go down. *)
Definition peak_never_drops (s s' : state) : Prop :=
  sf_peak_payload s <= sf_peak_payload s'.

(** Invariant 7 of the usage counters, as a relation. *)
Definition counter_order_kept (s s' : state) : Prop :=
  sf_current_payload s <= sf_peak_payload s ->
  sf_current_payload s' <= sf_peak_payload s'.

(** Everything sf_free has no business with. *)
Definition untouched_by_free (s s' : state) : Prop :=
  sf_errno s' = sf_errno s /\ heap_end s' = heap_end s
  /\ avail s' = avail s /\ sf_peak_payload s' = sf_peak_payload s.

Section FrameOfPublic.

Variable MAGIC : Z.
Variable heap_start : Z.
Variable heads : Z.
Context {R : state -> state -> Prop}.

Lemma keeps_mark_block_as_allocated {F : MallocFraming R} (c fs n : Z) :
  keeps R (mark_block_as_allocated MAGIC heap_start heads c fs n).
Proof.
  unfold mark_block_as_allocated. frame.
  apply keeps_modify; first [exact _ | intros s; apply R_add].
Qed.

Lemma keeps_sf_malloc {F : MallocFraming R} (fuel : nat) (n : Z) :
  keeps R (sf_malloc MAGIC heap_start heads fuel n).
Proof.
  unfold sf_malloc. frame;
    first [ apply keeps_initialize_heap
          | apply keeps_find_first_free_block_that_fits
          | apply keeps_extend_until_fit
          | apply keeps_split_free_block_if_necessary
          | apply keeps_remove_block_from_free_list
          | apply keeps_mark_block_as_allocated ]; exact _.
Qed.

Lemma keeps_sf_free {F : FreeFraming R} (fuel : nat) (pp : Z) :
  keeps R (sf_free MAGIC heap_start heads fuel pp).
Proof.
  unfold sf_free. frame;
    first [ apply keeps_modify; first [exact _ | intros s; apply R_current]
          | apply keeps_push_on_quick_list; exact _
          | apply keeps_release_to_free_list; exact _ ].
Qed.

Lemma keeps_copy_words {F : TagFraming R} (n : nat) (dst src : Z) :
  keeps R (copy_words heap_start heads n dst src).
Proof.
  revert dst src. induction n as [|n IH]; intros dst src; simpl; frame. apply IH.
Qed.

Lemma keeps_memcpy {F : TagFraming R} (dst src n : Z) :
  keeps R (memcpy heap_start heads dst src n).
Proof. unfold memcpy. frame. apply keeps_copy_words. Qed.

Lemma keeps_sf_realloc {F : PublicFraming R} (fuel : nat) (pp rsize : Z) :
  keeps R (sf_realloc MAGIC heap_start heads fuel pp rsize).
Proof.
  unfold sf_realloc. frame;
    first [ apply keeps_sf_malloc; exact _
          | apply keeps_sf_free; exact _
          | apply keeps_memcpy; exact _
          | apply keeps_coalesce_adjacent_free_blocks; exact _
          | apply keeps_insert_block_into_free_list; exact _
          | apply keeps_modify; first [exact _ | intros s; apply R_einval]
          | apply keeps_modify; first [exact _ | intros s; apply R_replace] ].
Qed.

End FrameOfPublic.

#[local] Instance pages_conserved_framing : PublicFraming pages_conserved.
Proof.
  assert (Hsame : forall s s', heap_end s' = heap_end s -> avail s' = avail s ->
                               pages_conserved s s').
  { intros s s' H1 H2. unfold pages_conserved. rewrite H1, H2. split; lia. }
  assert (Hadd : forall s n, pages_conserved s (add_payload n s)).
  { intros s n. apply Hsame; unfold add_payload; simpl;
      destruct (w64 (sf_current_payload s + n) >? sf_peak_payload s); reflexivity. }
  assert (Hrep : forall s a b, pages_conserved s (replace_payload a b s)).
  { intros s a b. apply Hsame; unfold replace_payload; simpl;
      destruct (w64 (w64 (sf_current_payload s - a) + b) >? sf_peak_payload s);
      reflexivity. }
  assert (Htag : TagFraming pages_conserved).
  { split; [split |..].
    - intros s. apply Hsame; reflexivity.
    - unfold pages_conserved. intros s1 s2 s3 [H1 H2] [H3 H4]. split; lia.
    - intros s m. apply Hsame; reflexivity.
    - intros s q. apply Hsame; reflexivity. }
  split; [split; [split |] | split | |]; try assumption.
  - intros s. apply Hsame; reflexivity.
  - intros s n E. unfold pages_conserved. simpl. rewrite E. split; lia.
  - intros s c. apply Hsame; reflexivity.
  - intros s. apply Hsame; reflexivity.
Qed.

#[local] Instance peak_never_drops_framing : PublicFraming peak_never_drops.
Proof.
  assert (Hadd : forall s n, peak_never_drops s (add_payload n s)).
  { intros s n. unfold peak_never_drops, add_payload. simpl.
    destruct (w64 (sf_current_payload s + n) >? sf_peak_payload s) eqn:E; simpl;
      [apply Z.gtb_lt in E|]; lia. }
  assert (Hrep : forall s a b, peak_never_drops s (replace_payload a b s)).
  { intros s a b. unfold peak_never_drops, replace_payload. simpl.
    destruct (w64 (w64 (sf_current_payload s - a) + b) >? sf_peak_payload s) eqn:E;
      simpl; [apply Z.gtb_lt in E|]; lia. }
  assert (Htag : TagFraming peak_never_drops).
  { split; [split |..]; unfold peak_never_drops; simpl; intros; lia. }
  split; [split; [split |] | split | |]; try assumption;
    unfold peak_never_drops; simpl; intros; lia.
Qed.

#[local] Instance counter_order_framing : MallocFraming counter_order_kept.
Proof.
  split; [split; [split; [split |..] |..] |]; unfold counter_order_kept; simpl;
    intros; auto.
  unfold add_payload. simpl.
  destruct (w64 (sf_current_payload s + n) >? sf_peak_payload s) eqn:E; simpl.
  - lia.
  - rewrite Z.gtb_ltb in E. apply Z.ltb_ge in E. exact E.
Qed.

#[local] Instance untouched_by_free_framing : FreeFraming untouched_by_free.
Proof.
  split; [split; [split |..] |]; unfold untouched_by_free; simpl; intros;
    try (repeat split; reflexivity).
  destruct H as (A1 & A2 & A3 & A4). destruct H0 as (B1 & B2 & B3 & B4).
  repeat split; congruence.
Qed.

(** The heap bounds, the provider and the error sink are as they were. *)
Definition same_extent (s s' : state) : Prop :=
  heap_end s' = heap_end s /\ avail s' = avail s /\ sf_errno s' = sf_errno s.

#[local] Instance same_extent_framing : TagFraming same_extent.
Proof.
  split; [split |..]; unfold same_extent; simpl; intros;
    try (repeat split; reflexivity).
  destruct H as (A1 & A2 & A3). destruct H0 as (B1 & B2 & B3).
  repeat split; congruence.
Qed.

Lemma keeps_extent_mark_block_as_allocated (MAGIC heap_start heads c fs n : Z) :
  keeps same_extent (mark_block_as_allocated MAGIC heap_start heads c fs n).
Proof.
  unfold mark_block_as_allocated. frame.
  apply keeps_modify. intros s. unfold same_extent, add_payload. simpl.
  destruct (w64 (sf_current_payload s + n) >? sf_peak_payload s);
    repeat split; reflexivity.
Qed.

(** X4. allocate takes a page from the provider only when the first-fit
    search fails.  On an initialised heap in which the search finds a block
    [c] for the request, allocate (if it returns) returns [c + 8], the
    payload of that very block, and leaves the heap end, the provider and
    the error sink as they were. *)
Theorem allocate_reuses_fitting_block_without_growing :
  forall (MAGIC heap_start heads : Z) (fuel : nat) (n c p : Z) (s s' : state),
    n <> 0 ->
    heap_start <> heap_end s ->
    find_first_free_block_that_fits MAGIC heap_start heads fuel
      (calculate_aligned_block_size n) s = Ret c s ->
    c <> NULL ->
    sf_malloc MAGIC heap_start heads fuel n s = Ret p s' ->
    p = padd c 8
    /\ heap_end s' = heap_end s /\ avail s' = avail s /\ sf_errno s' = sf_errno s.
Proof.
  intros MAGIC heap_start heads fuel n c p s s' Hn Hinit Hfind Hc H.
  apply Z.eqb_neq in Hn, Hinit, Hc.
  unfold sf_malloc in H. rewrite Hn in H. cbv zeta in H.
  unfold bind at 1, get in H. rewrite Hinit in H.
  unfold bind at 1, ret in H.
  unfold bind at 1 in H. rewrite Hfind in H.
  destruct fuel as [|fuel']; [discriminate H|].
  cbn [extend_until_fit] in H. rewrite Hc in H.
  unfold bind at 1, ret in H. rewrite Hc in H.
  apply (keeps_bind_inv same_extent) in H;
    [|apply keeps_split_free_block_if_necessary; exact _].
  destruct H as (u1 & s1 & R1 & H).
  apply (keeps_bind_inv same_extent) in H;
    [|apply keeps_remove_block_from_free_list; exact _].
  destruct H as (u2 & s2 & R2 & H).
  apply (keeps_bind_inv same_extent) in H;
    [|apply keeps_extent_mark_block_as_allocated].
  destruct H as (u3 & s3 & R3 & H).
  inversion H; subst p s3; clear H.
  split; [reflexivity|].
  destruct R1 as (A1 & A2 & A3). destruct R2 as (B1 & B2 & B3).
  destruct R3 as (C1 & C2 & C3).
  repeat split; congruence.
Qed.

(** A second request on a heap whose free block fits it. *)
Lemma allocate_reuses_fitting_block_without_growing_witness :
  let s := state_of (malloc_ SAMPLE_MAGIC 4 (fresh HEAP_BASE 37)) (fresh HEAP_BASE 37) in
  let r := malloc_ SAMPLE_MAGIC 300 s in
  value_of r 0 = HEAP_BASE + 80
  /\ heap_end (state_of r s) = heap_end s /\ avail (state_of r s) = avail s
  /\ sf_errno (state_of r s) = sf_errno s.
Proof.
  intros s r.
  apply (allocate_reuses_fitting_block_without_growing
           SAMPLE_MAGIC HEAP_BASE HEADS_BASE FUEL 300 (HEAP_BASE + 72)
           (value_of r 0) s (state_of r s)).
  - discriminate.
  - vm_compute. discriminate.
  - vm_compute. reflexivity.
  - vm_compute. discriminate.
  - vm_compute. reflexivity.
Defined.

(** X5. sf_peak_payload never goes down across a call of allocate, free or
    reallocate that returns. *)
Theorem peak_payload_never_decreases :
  forall (MAGIC heap_start heads : Z) (fuel : nat),
    (forall n s p s',
        sf_malloc MAGIC heap_start heads fuel n s = Ret p s' ->
        sf_peak_payload s <= sf_peak_payload s')
    /\ (forall pp s u s',
           sf_free MAGIC heap_start heads fuel pp s = Ret u s' ->
           sf_peak_payload s <= sf_peak_payload s')
    /\ (forall pp rsize s r s',
           sf_realloc MAGIC heap_start heads fuel pp rsize s = Ret r s' ->
           sf_peak_payload s <= sf_peak_payload s').
Proof.
  intros MAGIC heap_start heads fuel. repeat split.
  - intros n s p s' H.
    exact (keeps_sf_malloc (R := peak_never_drops)
             MAGIC heap_start heads fuel n s p s' H).
  - intros pp s u s' H.
    exact (keeps_sf_free (R := peak_never_drops)
             MAGIC heap_start heads fuel pp s u s' H).
  - intros pp rsize s r s' H.
    exact (keeps_sf_realloc (R := peak_never_drops)
             MAGIC heap_start heads fuel pp rsize s r s' H).
Qed.

Lemma peak_payload_never_decreases_witness :
  let s1 := state_of (malloc_ SAMPLE_MAGIC 2000 (fresh HEAP_BASE 37))
                     (fresh HEAP_BASE 37) in
  let s2 := state_of (free_ SAMPLE_MAGIC (HEAP_BASE + 48) s1) s1 in
  sf_current_payload s2 = 0 /\ 2000 <= sf_peak_payload s2.
Proof.
  intros s1 s2. split; [vm_compute; reflexivity|].
  destruct (peak_payload_never_decreases
              SAMPLE_MAGIC HEAP_BASE HEADS_BASE FUEL) as (_ & H & _).
  change 2000 with (sf_peak_payload s1).
  apply (H (HEAP_BASE + 48) s1 tt s2). vm_compute. reflexivity.
Defined.

(** X6. allocate preserves the order of the two usage counters: if
    sf_current_payload was at most sf_peak_payload before the call, it is
    so when the call returns. *)
Theorem allocate_keeps_current_below_peak :
  forall (MAGIC heap_start heads : Z) (fuel : nat) (n p : Z) (s s' : state),
    sf_malloc MAGIC heap_start heads fuel n s = Ret p s' ->
    sf_current_payload s <= sf_peak_payload s ->
    sf_current_payload s' <= sf_peak_payload s'.
Proof.
  intros MAGIC heap_start heads fuel n p s s' H.
  exact (keeps_sf_malloc (R := counter_order_kept)
           MAGIC heap_start heads fuel n s p s' H).
Qed.

Lemma allocate_keeps_current_below_peak_witness :
  let s' := state_of (malloc_ SAMPLE_MAGIC 24 (fresh HEAP_BASE 37))
                     (fresh HEAP_BASE 37) in
  sf_current_payload s' <= sf_peak_payload s'.
Proof.
  intros s'.
  apply (allocate_keeps_current_below_peak
           SAMPLE_MAGIC HEAP_BASE HEADS_BASE FUEL 24
           (value_of (malloc_ SAMPLE_MAGIC 24 (fresh HEAP_BASE 37)) 0)
           (fresh HEAP_BASE 37) s').
  - vm_compute. reflexivity.
  - vm_compute. discriminate.
Defined.

(** X7. A call of free that returns leaves the error sink, the heap bounds, the
    provider and sf_peak_payload as they were.  free(NULL) changes nothing
    at all; for any other pointer, sf_current_payload goes down (modulo
    2^64) by exactly the payload field of the header at [pp - 8]. *)
Theorem free_changes_only_blocks_lists_and_current :
  forall (MAGIC heap_start heads : Z) (fuel : nat) (pp : Z) (s s' : state) (u : unit),
    sf_free MAGIC heap_start heads fuel pp s = Ret u s' ->
    untouched_by_free s s'
    /\ (pp = NULL -> s' = s)
    /\ (pp <> NULL ->
        sf_current_payload s' =
        w64 (sf_current_payload s - tag_payload MAGIC s (psub pp 8))).
Proof.
  intros MAGIC heap_start heads fuel pp s s' u H. split; [|split].
  - exact (keeps_sf_free (R := untouched_by_free)
             MAGIC heap_start heads fuel pp s u s' H).
  - intros ->. unfold sf_free in H. simpl in H. inversion H. reflexivity.
  - intros Hp. unfold tag_payload.
    apply (sf_free_current MAGIC heap_start heads fuel pp s s' u Hp); [|exact H].
    unfold sf_free in H. apply Z.eqb_neq in Hp. rewrite Hp in H.
    apply bind_inv in H. destruct H as (h & s1 & H1 & _).
    apply load_inv in H1. destruct H1 as (_ & Hm & _). exact Hm.
Qed.

Lemma free_changes_only_blocks_lists_and_current_witness :
  let s1 := state_of (malloc_ SAMPLE_MAGIC 2000 (fresh HEAP_BASE 37))
                     (fresh HEAP_BASE 37) in
  let s2 := state_of (free_ SAMPLE_MAGIC (HEAP_BASE + 48) s1) s1 in
  untouched_by_free s1 s2 /\ sf_current_payload s2 = w64 (2000 - 2000).
Proof.
  intros s1 s2.
  destruct (free_changes_only_blocks_lists_and_current
              SAMPLE_MAGIC HEAP_BASE HEADS_BASE FUEL (HEAP_BASE + 48) s1 s2 tt)
    as (H1 & _ & H3).
  - vm_compute. reflexivity.
  - split; [exact H1|]. rewrite H3 by (vm_compute; discriminate).
    vm_compute. reflexivity.
Defined.

(** ** The tag written by mark_block_as_allocated *)

Lemma land_4_cases (q : Z) : Z.land q 4 = 0 \/ Z.land q 4 = 4.
Proof.
  destruct (Z.testbit q 2) eqn:E; [right | left]; apply Z.bits_inj'; intros i Hi;
    rewrite Z.land_spec; change 4 with (2 ^ 2); rewrite Z.pow2_bits_eqb by lia;
    destruct (Z.eqb_spec 2 i) as [<-|Hne];
    rewrite ?E, ?andb_false_r, ?Z.bits_0; reflexivity.
Qed.

Lemma lor_disjoint_add (a b : Z) : Z.land a b = 0 -> Z.lor a b = a + b.
Proof.
  intros H. rewrite <- Z.lxor_lor by exact H. symmetry.
  apply Z.add_nocarry_lxor. exact H.
Qed.

Lemma land_low_bits_disjoint (k : Z) (a b : Z) :
  0 <= k -> a mod 2 ^ k = 0 -> 0 <= b < 2 ^ k -> Z.land a b = 0.
Proof.
  intros Hk Ha Hb.
  rewrite <- (Z.mod_small b (2 ^ k)) by exact Hb.
  rewrite <- (Z.land_ones b k) by exact Hk.
  rewrite (Z.land_comm b), Z.land_assoc, Z.land_ones by exact Hk.
  rewrite Ha. apply Z.land_0_l.
Qed.

(** The tag is the sum of its three disjoint fields. *)
Lemma allocated_tag_as_sum (n fs q : Z) :
  0 <= n < 4294967296 -> 0 <= fs < 4294967296 -> fs mod 16 = 0 ->
  exists b, (b = 1 \/ b = 5)
            /\ Z.lor (w64 (Z.shiftl n 32))
                     (Z.lor fs (Z.lor (Z.land q IN_QUICK_LIST) THIS_BLOCK_ALLOCATED))
               = n * 4294967296 + (fs + b).
Proof.
  intros Hn Hfs Hal. unfold IN_QUICK_LIST, THIS_BLOCK_ALLOCATED.
  assert (Hb : exists b, (b = 1 \/ b = 5) /\ Z.lor (Z.land q 4) 1 = b).
  { destruct (land_4_cases q) as [-> | ->]; [exists 1 | exists 5]; auto. }
  destruct Hb as (b & Hb & ->). exists b. split; [exact Hb|].
  assert (Hs : w64 (Z.shiftl n 32) = n * 4294967296).
  { rewrite Z.shiftl_mul_pow2 by lia. change (2 ^ 32) with 4294967296.
    apply w64_small. unfold two64.
    change (2 ^ 64) with (4294967296 * 4294967296). nia. }
  rewrite Hs.
  rewrite (lor_disjoint_add fs b).
  2:{ apply (land_low_bits_disjoint 4); [lia | exact Hal | ].
      change (2 ^ 4) with 16. lia. }
  apply lor_disjoint_add.
  apply (land_low_bits_disjoint 32); [lia | | ].
  - change (2 ^ 32) with 4294967296. apply Z_mod_mult.
  - change (2 ^ 32) with 4294967296.
    assert (fs <= 4294967296 - 16).
    { pose proof (Z.div_mod fs 16 ltac:(lia)) as Hd. rewrite Hal in Hd.
      assert (fs / 16 < 268435456) by (apply Z.div_lt_upper_bound; lia). lia. }
    lia.
Qed.

(** The three fields read back from such a tag. *)
Lemma allocated_tag_fields (n fs q : Z) :
  0 <= n < 4294967296 -> 0 <= fs < 4294967296 -> fs mod 16 = 0 ->
  let tag := Z.lor (w64 (Z.shiftl n 32))
                   (Z.lor fs (Z.lor (Z.land q IN_QUICK_LIST) THIS_BLOCK_ALLOCATED)) in
  Z.shiftr tag 32 = n
  /\ Z.land (Z.land tag MASK32) NOT_0xF = fs
  /\ Z.land (Z.land tag 15) THIS_BLOCK_ALLOCATED = 1.
Proof.
  intros Hn Hfs Hal tag.
  destruct (allocated_tag_as_sum n fs q Hn Hfs Hal) as (b & Hb & Hsum).
  fold tag in Hsum.
  pose proof (Z.div_mod fs 16 ltac:(lia)) as Hd. rewrite Hal in Hd.
  assert (Hfs' : fs + b < 4294967296).
  { assert (fs / 16 < 268435456) by (apply Z.div_lt_upper_bound; lia). lia. }
  split; [|split].
  - rewrite Hsum, Z.shiftr_div_pow2 by lia. change (2 ^ 32) with 4294967296.
    rewrite Z.add_comm, Z.div_add by lia.
    rewrite Z.div_small by lia. reflexivity.
  - change MASK32 with (Z.ones 32). rewrite Z.land_ones by lia.
    change (2 ^ 32) with 4294967296.
    rewrite Hsum, Z.add_comm, Z.mod_add by lia.
    rewrite Z.mod_small by lia. rewrite land_NOT_0xF.
    assert ((fs + b) / 16 = fs / 16).
    { symmetry. apply (Z.div_unique_pos _ _ _ b); lia. }
    lia.
  - rewrite <- Z.land_assoc. unfold THIS_BLOCK_ALLOCATED.
    change (Z.land 15 1) with (Z.ones 1). rewrite Z.land_ones by lia.
    change (2 ^ 1) with 2. rewrite Hsum.
    symmetry. destruct Hb as [-> | ->].
    + apply (Z.mod_unique_pos _ _ (n * 2147483648 + 8 * (fs / 16))); lia.
    + apply (Z.mod_unique_pos _ _ (n * 2147483648 + 8 * (fs / 16) + 2)); lia.
Qed.

Lemma mapped_word_in_range (heap_start heads a : Z) (s : state) :
  0 <= heap_start -> 0 <= heads ->
  heads + SIZEOF_BLOCK * NUM_FREE_LISTS <= two64 -> heap_end s <= two64 ->
  mapped heap_start heads a s = true -> 0 <= a /\ a + 8 <= two64.
Proof.
  unfold mapped, in_heap, in_heads. intros H1 H2 H3 H4 H.
  apply orb_true_iff in H. destruct H as [H|H];
    apply andb_true_iff in H; destruct H as [Ha Hb];
    apply Z.leb_le in Ha; apply Z.leb_le in Hb; lia.
Qed.

(** X8. What a successful allocate leaves in the header.  For a request of
    0 < n <= 2^32 - 32 bytes that returns a non-null pointer [p], the word at
    [p - 8] is readable and decodes to: payload field [n], size field
    [calculate_aligned_block_size n], ALLOCATED set; get_payload_size reads
    [n] back; and sf_current_payload has grown by [n] (modulo 2^64). *)
Theorem allocate_records_the_request :
  forall (MAGIC heap_start heads : Z) (fuel : nat) (n p : Z) (s s1 : state),
    0 < n <= 4294967264 ->
    0 <= heap_start -> 0 <= heads ->
    heads + SIZEOF_BLOCK * NUM_FREE_LISTS <= two64 ->
    heap_end s1 <= two64 ->
    sf_malloc MAGIC heap_start heads fuel n s = Ret p s1 ->
    p <> NULL ->
    mapped heap_start heads (p - 8) s1 = true
    /\ tag_payload MAGIC s1 (p - 8) = n
    /\ tag_size MAGIC s1 (p - 8) = calculate_aligned_block_size n
    /\ Z.land (tag_flags MAGIC s1 (p - 8)) THIS_BLOCK_ALLOCATED = 1
    /\ get_payload_size MAGIC heap_start heads (p - 8) s1 = Ret n s1
    /\ sf_current_payload s1 = w64 (sf_current_payload s + n).
Proof.
  intros MAGIC heap_start heads fuel n p s s1 Hn Hhs Hheads Hhd Hend Hmalloc Hp.
  destruct (sf_malloc_shape MAGIC heap_start heads fuel n p s s1) as
    (c & sA & u' & Rcur & Hmark & ->); [lia | exact Hp | exact Hmalloc |].
  destruct (mark_block_as_allocated_reads_header _ _ _ _ _ _ _ _ _ Hmark)
    as [HmA HendA].
  destruct (mapped_word_in_range heap_start heads c sA) as [Hc0 Hc8];
    try assumption; [rewrite <- HendA; exact Hend|].
  assert (Hc8' : c + 8 < two64).
  { destruct (Z.eq_dec (c + 8) two64) as [E|E]; [|lia].
    exfalso. apply Hp. unfold padd, w64. rewrite E. apply Z_mod_same_full. }
  assert (Hpc : padd c 8 - 8 = c).
  { unfold padd. rewrite w64_small by lia. lia. }
  rewrite Hpc.
  pose proof (calculate_aligned_block_size_bounds n Hn) as Hfs.
  destruct (calculate_aligned_block_size_props n) as (Hal & _);
    [unfold two64; lia|].
  destruct (mark_block_as_allocated_spec MAGIC heap_start heads c
              (calculate_aligned_block_size n) n sA s1 u')
    as (Hm1 & Hcur1 & flags & Htag);
    [unfold two64 in *; lia | unfold two64; lia | exact Hmark |].
  destruct (allocated_tag_fields n (calculate_aligned_block_size n) flags)
    as (F1 & F2 & F3); [lia | lia | exact Hal |].
  unfold tag_payload, tag_size, tag_flags, get_payload_size.
  rewrite Htag. repeat split.
  - exact Hm1.
  - exact F1.
  - exact F2.
  - exact F3.
  - unfold bind. rewrite (load_mapped _ _ _ _ Hm1). unfold ret.
    rewrite Htag, F1. reflexivity.
  - rewrite Hcur1. unfold same_current in Rcur. rewrite Rcur. reflexivity.
Qed.

Lemma allocate_records_the_request_witness :
  let r := malloc_ SAMPLE_MAGIC 100 (fresh HEAP_BASE 37) in
  let p := value_of r 0 in
  let s1 := state_of r (fresh HEAP_BASE 37) in
  p = HEAP_BASE + 48
  /\ tag_payload SAMPLE_MAGIC s1 (p - 8) = 100
  /\ tag_size SAMPLE_MAGIC s1 (p - 8) = calculate_aligned_block_size 100.
Proof.
  intros r p s1. split; [vm_compute; reflexivity|].
  destruct (allocate_records_the_request
              SAMPLE_MAGIC HEAP_BASE HEADS_BASE FUEL 100 p (fresh HEAP_BASE 37) s1)
    as (_ & H2 & H3 & _).
  - lia.
  - vm_compute. discriminate.
  - vm_compute. discriminate.
  - vm_compute. discriminate.
  - vm_compute. discriminate.
  - vm_compute. reflexivity.
  - vm_compute. discriminate.
  - split; [exact H2 | exact H3].
Defined.

(** ** When allocate returns null *)

Section NullResult.

Variable MAGIC : Z.
Variable heap_start : Z.
Variable heads : Z.
Hypothesis heap_start_pos : 0 < heap_start.
Hypothesis heads_pos : 0 < heads.

Lemma mapped_pos (a : Z) (s : state) :
  mapped heap_start heads a s = true -> 0 < a.
Proof.
  unfold mapped, in_heap, in_heads. intros H.
  apply orb_true_iff in H. destruct H as [H|H];
    apply andb_true_iff in H; destruct H as [Ha _];
    apply Z.leb_le in Ha; lia.
Qed.

Lemma write_free_region_and_epilogue_result (b size : Z) (s s' : state) (r : Z) :
  write_free_region_and_epilogue MAGIC heap_start heads b size s = Ret r s' ->
  r = b /\ 0 < b.
Proof.
  intros H. unfold write_free_region_and_epilogue in H.
  apply bind_inv in H. destruct H as (u1 & s1 & H1 & H).
  apply store_inv in H1. destruct H1 as [Hm _].
  repeat (apply bind_inv in H; destruct H as (? & ? & _ & H)).
  inversion H; subst. split; [reflexivity | exact (mapped_pos _ _ Hm)].
Qed.

(** extend_heap_by_one_page yields null only on its failure path. *)
Lemma extend_heap_by_one_page_null (s s' : state) (r : Z) :
  heap_end s <> 0 ->
  extend_heap_by_one_page MAGIC heap_start heads s = Ret r s' ->
  r = NULL ->
  s' = set_errno ENOMEM s /\ avail s = 0%nat.
Proof.
  intros He H Hr. unfold extend_heap_by_one_page in H.
  apply bind_inv in H. destruct H as (nps & s1 & H1 & H).
  unfold sf_mem_grow in H1. destruct (avail s) as [|k] eqn:Ea.
  - inversion H1; subst nps s1; clear H1. simpl in H.
    inversion H; subst. split; reflexivity.
  - inversion H1; subst nps s1; clear H1.
    apply Z.eqb_neq in He. unfold NULL in H. rewrite He in H.
    cbv zeta in H.
    apply bind_inv in H. destruct H as (ph & s2 & _ & H).
    exfalso.
    match type of H with
    | (if ?b then _ else _) _ = _ => destruct b
    end.
    + apply bind_inv in H. destruct H as (u & s3 & _ & H).
      apply write_free_region_and_epilogue_result in H. unfold NULL in Hr. lia.
    + apply write_free_region_and_epilogue_result in H. unfold NULL in Hr. lia.
Qed.

Lemma extend_until_fit_null (n fuel : nat) (c required : Z) (s s' : state) (r : Z) :
  0 < heap_end s ->
  extend_until_fit MAGIC heap_start heads n fuel c required s = Ret r s' ->
  r = NULL ->
  sf_errno s' = ENOMEM /\ avail s' = 0%nat.
Proof.
  revert c s. induction n as [|n IH]; intros c s He H Hr; simpl in H.
  - discriminate H.
  - destruct (c =? NULL) eqn:Ec.
    + apply bind_inv in H. destruct H as (nb & s1 & H1 & H).
      destruct (nb =? NULL) eqn:Enb.
      * apply Z.eqb_eq in Enb.
        destruct (extend_heap_by_one_page_null s s1 nb) as [-> Ha];
          [lia | exact H1 | exact Enb |].
        inversion H; subst. split; [reflexivity | exact Ha].
      * pose proof (keeps_extend_heap_by_one_page (R := pages_conserved)
                      MAGIC heap_start heads s nb s1 H1) as [Hpc Hav].
        apply bind_inv in H. destruct H as (c' & s2 & H2 & H).
        apply scan_free_lists_sound in H2. destruct H2 as [-> _].
        apply (IH c' s1); [|exact H | exact Hr].
        unfold PAGE_SZ in Hpc. lia.
    + inversion H; subst. apply Z.eqb_neq in Ec. contradiction.
Qed.

End NullResult.

(** X9. If allocate of a non-zero size returns null, then the error sink holds
    out-of-memory and the page provider has no page left: null is returned
    only after a failed sf_mem_grow. *)
Theorem null_from_allocate_means_out_of_memory :
  forall (MAGIC heap_start heads : Z) (fuel : nat) (n : Z) (s s' : state),
    n <> 0 ->
    0 < heap_start -> heap_start <= heap_end s -> 0 < heads ->
    heads + SIZEOF_BLOCK * NUM_FREE_LISTS < two64 ->
    heap_end s' < two64 ->
    sf_malloc MAGIC heap_start heads fuel n s = Ret NULL s' ->
    sf_errno s' = ENOMEM /\ avail s' = 0%nat.
Proof.
  intros MAGIC heap_start heads fuel n s s' Hn Hhs Hle Hheads Hhd Hend H.
  unfold sf_malloc in H. apply Z.eqb_neq in Hn. rewrite Hn in H.
  apply bind_inv in H. destruct H as (e & sa & Ha & H).
  inversion Ha; subst e sa; clear Ha.
  apply (keeps_bind_inv pages_conserved) in H.
  2:{ destruct (heap_start =? heap_end s);
        [apply keeps_initialize_heap | apply keeps_ret]; exact _. }
  destruct H as (u0 & sb & [Hpc Hav] & H).
  apply bind_inv in H. destruct H as (c0 & sc & Hc & H).
  apply scan_free_lists_sound in Hc. destruct Hc as [-> _].
  apply bind_inv in H. destruct H as (c & sd & Hext & H).
  destruct (c =? NULL) eqn:Ec.
  - inversion H; subst s'. apply Z.eqb_eq in Ec.
    apply (extend_until_fit_null MAGIC heap_start heads Hhs Hheads
             fuel fuel c0 (calculate_aligned_block_size n) sb sd c);
      [unfold PAGE_SZ in Hpc; lia | exact Hext | exact Ec].
  - exfalso.
    apply bind_inv in H. destruct H as (u1 & se & _ & H).
    apply bind_inv in H. destruct H as (u2 & sf & _ & H).
    apply bind_inv in H. destruct H as (u3 & sg & Hmark & H).
    inversion H as [[Hnull Hs]]. subst sg.
    destruct (mark_block_as_allocated_reads_header _ _ _ _ _ _ _ _ _ Hmark)
      as [Hm HendA].
    pose proof (mapped_pos heap_start heads Hhs Hheads c sf Hm) as Hpos.
    assert (Hc8 : c + 8 < two64).
    { unfold mapped, in_heap, in_heads in Hm.
      apply orb_true_iff in Hm. destruct Hm as [Hm|Hm];
        apply andb_true_iff in Hm; destruct Hm as [_ Hb];
        apply Z.leb_le in Hb; lia. }
    unfold padd in Hnull. rewrite w64_small in Hnull by lia.
    unfold NULL in Hnull. lia.
Qed.

Lemma null_from_allocate_means_out_of_memory_witness :
  let s' := state_of (malloc_ SAMPLE_MAGIC 151505 (fresh HEAP_BASE 37))
                     (fresh HEAP_BASE 37) in
  sf_errno s' = ENOMEM /\ avail s' = 0%nat.
Proof.
  intros s'.
  apply (null_from_allocate_means_out_of_memory
           SAMPLE_MAGIC HEAP_BASE HEADS_BASE FUEL 151505 (fresh HEAP_BASE 37) s').
  - discriminate.
  - reflexivity.
  - vm_compute. discriminate.
  - reflexivity.
  - vm_compute. reflexivity.
  - vm_compute. reflexivity.
  - vm_compute. reflexivity.
Defined.

(** ** Reallocating in place *)

(** Only heap words and quick-list entries differ. *)
Definition only_blocks_and_lists (s s' : state) : Prop :=
  sf_current_payload s' = sf_current_payload s
  /\ sf_peak_payload s' = sf_peak_payload s
  /\ sf_errno s' = sf_errno s
  /\ heap_end s' = heap_end s
  /\ avail s' = avail s.

#[local] Instance only_blocks_and_lists_framing : TagFraming only_blocks_and_lists.
Proof.
  split; [split |..]; unfold only_blocks_and_lists; simpl; intros;
    try (repeat split; reflexivity).
  destruct H as (A1 & A2 & A3 & A4 & A5). destruct H0 as (B1 & B2 & B3 & B4 & B5).
  repeat split; congruence.
Qed.

Lemma replace_payload_fields (a b : Z) (s : state) :
  sf_current_payload (replace_payload a b s)
  = w64 (w64 (sf_current_payload s - a) + b)
  /\ sf_errno (replace_payload a b s) = sf_errno s
  /\ heap_end (replace_payload a b s) = heap_end s
  /\ avail (replace_payload a b s) = avail s.
Proof.
  unfold replace_payload. simpl.
  destruct (w64 (w64 (sf_current_payload s - a) + b) >? sf_peak_payload s);
    repeat split; reflexivity.
Qed.

(** X10. When the pointer passes reallocate's validation and the new aligned
    size does not exceed the block's size, reallocate (if it returns) hands
    back the same pointer; sf_current_payload has the old payload field
    replaced by the new request (modulo 2^64); the error sink and the heap
    bounds are unchanged. *)
Theorem reallocate_within_block_keeps_pointer :
  forall (MAGIC heap_start heads : Z) (fuel : nat) (pp rsize r : Z) (s s' : state),
    pp <> NULL -> rsize <> 0 ->
    realloc_range_fails heap_start pp s = false ->
    mapped heap_start heads (psub pp 8) s = true ->
    realloc_flags_fail (Z.lxor (word s (psub pp 8)) MAGIC) = false ->
    calculate_aligned_block_size rsize <= tag_size MAGIC s (psub pp 8) ->
    sf_realloc MAGIC heap_start heads fuel pp rsize s = Ret r s' ->
    r = pp
    /\ sf_current_payload s' =
       w64 (w64 (sf_current_payload s - tag_payload MAGIC s (psub pp 8)) + rsize)
    /\ sf_errno s' = sf_errno s
    /\ heap_end s' = heap_end s
    /\ avail s' = avail s.
Proof.
  intros MAGIC heap_start heads fuel pp rsize r s s' Hp Hr Hrange Hm Hflags Hle H.
  unfold tag_size in Hle. unfold tag_payload.
  unfold sf_realloc in H. apply Z.eqb_neq in Hp. apply Z.eqb_neq in Hr.
  rewrite Hp, Hr in H. unfold bind at 1, get in H. rewrite Hrange in H.
  unfold bind at 1 in H. rewrite (load_mapped _ _ _ _ Hm), Hflags in H.
  cbv zeta in H.
  set (d := Z.lxor (word s (psub pp 8)) MAGIC) in *.
  destruct (replace_payload_fields (Z.shiftr d 32) rsize s) as (P1 & P2 & P3 & P4).
  destruct (calculate_aligned_block_size rsize
            =? Z.land (Z.land d MASK32) NOT_0xF) eqn:Eeq.
  - apply bind_inv in H. destruct H as (u1 & s1 & H1 & H).
    apply store_inv in H1. destruct H1 as (_ & ->).
    apply bind_inv in H. destruct H as (u2 & s2 & H2 & H).
    inversion H2; subst s2; clear H2. inversion H; subst r s'; clear H.
    destruct (replace_payload_fields (Z.shiftr d 32) rsize
                (set_mem (<[psub pp 8 :=
                   Z.lxor (Z.lor (w64 (Z.shiftl rsize 32))
                     (Z.lor (Z.land (Z.land d MASK32) NOT_0xF)
                            THIS_BLOCK_ALLOCATED)) MAGIC]> (mem s)) s))
      as (Q1 & Q2 & Q3 & Q4).
    repeat split; assumption.
  - apply Z.eqb_neq in Eeq.
    assert (Elt : (calculate_aligned_block_size rsize
                   <? Z.land (Z.land d MASK32) NOT_0xF) = true)
      by (apply Z.ltb_lt; lia).
    rewrite Elt in H.
    apply bind_inv in H. destruct H as (u1 & s1 & H1 & H).
    inversion H1; subst s1; clear H1.
    apply (keeps_bind_inv only_blocks_and_lists) in H.
    + destruct H as (u2 & s2 & (A1 & A2 & A3 & A4 & A5) & H).
      inversion H; subst r s'; clear H.
      repeat split; congruence.
    + frame; first [ apply keeps_coalesce_adjacent_free_blocks
                   | apply keeps_insert_block_into_free_list ]; exact _.
Qed.

Lemma reallocate_within_block_keeps_pointer_witness :
  let r1 := malloc_ SAMPLE_MAGIC 80 (fresh HEAP_BASE 37) in
  let s1 := state_of r1 (fresh HEAP_BASE 37) in
  let x := value_of r1 0 in
  let r2 := realloc_ SAMPLE_MAGIC x 64 s1 in
  value_of r2 0 = x /\ sf_current_payload (state_of r2 s1) = 64.
Proof.
  intros r1 s1 x r2.
  destruct (reallocate_within_block_keeps_pointer
              SAMPLE_MAGIC HEAP_BASE HEADS_BASE FUEL x 64 (value_of r2 0)
              s1 (state_of r2 s1)) as (H1 & H2 & _).
  - vm_compute. discriminate.
  - discriminate.
  - vm_compute. reflexivity.
  - vm_compute. reflexivity.
  - vm_compute. reflexivity.
  - vm_compute. discriminate.
  - vm_compute. reflexivity.
  - split; [exact H1|]. rewrite H2. vm_compute. reflexivity.
Defined.

(** ** The heap walk of sf_fragmentation *)

Lemma decoded_size_range (h : Z) :
  0 <= Z.land (Z.land h MASK32) NOT_0xF < 4294967296.
Proof.
  change MASK32 with (Z.ones 32). rewrite Z.land_ones by lia.
  rewrite land_NOT_0xF. change (2 ^ 32) with 4294967296.
  pose proof (Z.mod_pos_bound h 4294967296 ltac:(lia)) as Hm.
  pose proof (Z.mul_div_le (h mod 4294967296) 16 ltac:(lia)) as Hd.
  assert (0 <= h mod 4294967296 / 16) by (apply Z.div_pos; lia).
  lia.
Qed.

Section HeapWalk.

Variable MAGIC : Z.
Variable heap_start : Z.
Variable heads : Z.
Hypothesis heap_start_nonneg : 0 <= heap_start.

Lemma walk_heap_returns (fuel : nat) (current : Z) (acc : Z * Z) (s : state) :
  heap_end s + 8589934592 <= two64 ->
  heap_start <= current <= heap_end s + 4294967296 ->
  Z.max 0 (heap_end s - current) + 32 <= 32 * Z.of_nat fuel ->
  exists acc', walk_heap MAGIC heap_start heads fuel current acc s = Ret acc' s.
Proof.
  intros Hend. revert current acc.
  induction fuel as [|fuel IH]; intros current acc Hcur Hfuel.
  - exfalso. simpl in Hfuel. lia.
  - simpl. unfold bind at 1, get.
    assert (Hp : padd current 8 = current + 8)
      by (unfold padd; apply w64_small; unfold two64 in *; lia).
    rewrite Hp.
    destruct (current + 8 <? heap_end s) eqn:E; [|eexists; reflexivity].
    apply Z.ltb_lt in E.
    assert (Hm : mapped heap_start heads current s = true).
    { unfold mapped, in_heap. apply orb_true_iff. left.
      apply andb_true_iff. split; apply Z.leb_le; lia. }
    unfold bind at 1. rewrite (load_mapped _ _ _ _ Hm). cbv zeta.
    pose proof (decoded_size_range (Z.lxor (word s current) MAGIC)) as Hbs.
    set (bs := Z.land (Z.land (Z.lxor (word s current) MAGIC) MASK32) NOT_0xF) in *.
    destruct ((bs <? 32) || negb (bs mod 16 =? 0)) eqn:Ebad;
      [eexists; reflexivity|].
    apply orb_false_iff in Ebad. destruct Ebad as [Ebs _].
    apply Z.ltb_ge in Ebs.
    assert (Hn : padd current bs = current + bs)
      by (unfold padd; apply w64_small; unfold two64 in *; lia).
    rewrite Hn. apply IH; lia.
Qed.

End HeapWalk.

(** X11. The heap walk of sf_fragmentation is safe whatever the heap holds: for
    a heap that does not reach into the top 8 GiB of the address space and
    a loop bound of one iteration per 32 bytes of heap (plus one), the walk
    from the end of the prologue reads only words inside the heap, never
    aborts, and returns with the state unchanged. *)
Theorem heap_walk_is_memory_safe_and_terminates :
  forall (MAGIC heap_start heads : Z) (fuel : nat) (acc : Z * Z) (s : state),
    0 <= heap_start <= heap_end s ->
    heap_end s + 8589934592 <= two64 ->
    heap_end s - heap_start + 32 <= 32 * Z.of_nat fuel ->
    exists acc',
      walk_heap MAGIC heap_start heads fuel (padd heap_start 40) acc s
      = Ret acc' s.
Proof.
  intros MAGIC heap_start heads fuel acc s Hhs Hend Hfuel.
  assert (Hp : padd heap_start 40 = heap_start + 40).
  { unfold padd. apply w64_small. unfold two64 in *. lia. }
  rewrite Hp. apply walk_heap_returns; try assumption; lia.
Qed.

Lemma heap_walk_is_memory_safe_and_terminates_witness :
  let s := state_of (malloc_ SAMPLE_MAGIC 100 (fresh HEAP_BASE 37))
                    (fresh HEAP_BASE 37) in
  exists acc',
    walk_heap SAMPLE_MAGIC HEAP_BASE HEADS_BASE 130 (padd HEAP_BASE 40) (0, 0) s
    = Ret acc' s.
Proof.
  intros s.
  apply (heap_walk_is_memory_safe_and_terminates
           SAMPLE_MAGIC HEAP_BASE HEADS_BASE 130 (0, 0) s).
  - vm_compute. split; discriminate.
  - vm_compute. discriminate.
  - vm_compute. discriminate.
Defined.

(** ** The word after an allocated block *)

(** X12. mark_block_as_allocated rewrites the header of the block that follows
    the one it allocates: when that header lies below the heap end, it comes
    out with IN_QUICK_LIST cleared and every other bit as it was -- whether
    or not the following block sits on a quick list. *)
Theorem marking_clears_quick_flag_of_next_block :
  forall (MAGIC heap_start heads : Z) (c fs n : Z) (s s' : state) (u : unit),
    0 <= c < two64 -> 8 < fs < two64 ->
    padd c fs < heap_end s ->
    mark_block_as_allocated MAGIC heap_start heads c fs n s = Ret u s' ->
    Z.lxor (word s' (padd c fs)) MAGIC
    = Z.land (Z.lxor (word s (padd c fs)) MAGIC) (Z.lnot IN_QUICK_LIST)
    /\ Z.land (Z.lxor (word s' (padd c fs)) MAGIC) IN_QUICK_LIST = 0.
Proof.
  intros MAGIC heap_start heads c fs n s s' u Hc Hfs Hnext H.
  assert (Hfoot : psub (padd c fs) 8 <> padd c fs).
  { apply psub_ne; [apply padd_range | unfold two64; lia]. }
  assert (Hne : c <> padd c fs).
  { intros E. symmetry in E. revert E. apply padd_ne; [exact Hc | lia]. }
  unfold mark_block_as_allocated in H.
  apply bind_inv in H. destruct H as (h & s1 & H1 & H).
  apply load_inv in H1. destruct H1 as (-> & Hm & ->).
  apply bind_inv in H. destruct H as (u1 & s2 & H2 & H).
  apply store_inv in H2. destruct H2 as (_ & ->).
  apply bind_inv in H. destruct H as (h' & s3 & H3 & H).
  apply load_inv in H3. destruct H3 as (-> & _ & ->).
  rewrite word_set_mem_eq in H.
  apply bind_inv in H. destruct H as (u2 & s4 & H4 & H).
  apply store_inv in H4. destruct H4 as (_ & ->).
  apply bind_inv in H. destruct H as (e & s5 & H5 & H).
  inversion H5; subst e s5; clear H5.
  apply bind_inv in H. destruct H as (u3 & s6 & H6 & H).
  inversion H; subst s'; clear H.
  match type of H6 with
  | context [if ?b then _ else _] =>
      replace b with true in H6 by (symmetry; apply Z.ltb_lt; exact Hnext)
  end.
  apply bind_inv in H6. destruct H6 as (nh & s7 & H7 & H6).
  apply load_inv in H7. destruct H7 as (-> & _ & ->).
  apply store_inv in H6. destruct H6 as (_ & ->).
  assert (Hw : forall m t, word (add_payload n (set_mem m t)) (padd c fs)
                           = default 0 (m !! padd c fs)).
  { intros m t. unfold word. destruct (add_payload_mem n (set_mem m t)) as [-> _].
    reflexivity. }
  rewrite Hw, lookup_insert_eq. cbn [from_option id]. rewrite lxor_cancel.
  rewrite !word_insert_ne by assumption.
  change (word (set_mem (mem s) _) (padd c fs)) with (word s (padd c fs)).
  split; [reflexivity|].
  rewrite <- Z.land_assoc. change (Z.land (Z.lnot IN_QUICK_LIST) IN_QUICK_LIST) with 0.
  apply Z.land_0_r.
Qed.

Lemma marking_clears_quick_flag_of_next_block_witness :
  let s0 := state_of ((_ <- malloc_ SAMPLE_MAGIC 8 ;; a <- malloc_ SAMPLE_MAGIC 200 ;;
                       b <- malloc_ SAMPLE_MAGIC 8 ;;
                       free_ SAMPLE_MAGIC b ;;; free_ SAMPLE_MAGIC a)
                        (fresh HEAP_BASE 37)) (fresh HEAP_BASE 37) in
  let s1 := state_of (mark_block_as_allocated SAMPLE_MAGIC HEAP_BASE HEADS_BASE
                        (HEAP_BASE + 72) 224 200 s0) s0 in
  tag_flags SAMPLE_MAGIC s0 (HEAP_BASE + 296) = 5
  /\ Z.land (Z.lxor (word s1 (padd (HEAP_BASE + 72) 224)) SAMPLE_MAGIC)
            IN_QUICK_LIST = 0.
Proof.
  intros s0 s1. split; [vm_compute; reflexivity|].
  destruct (marking_clears_quick_flag_of_next_block
              SAMPLE_MAGIC HEAP_BASE HEADS_BASE (HEAP_BASE + 72) 224 200 s0 s1 tt)
    as [_ H].
  - vm_compute. split; [discriminate | reflexivity].
  - vm_compute. split; reflexivity.
  - vm_compute. reflexivity.
  - vm_compute. reflexivity.
  - exact H.
Defined.

(** ** flush_quick_list and the payload field *)

Lemma store_mapped (heap_start heads a v : Z) (s : state) :
  mapped heap_start heads a s = true ->
  store heap_start heads a v s = Ret tt (set_mem (<[a := v]> (mem s)) s).
Proof. unfold store. intros ->. reflexivity. Qed.

(** X13. flush_quick_list decodes the block size with [& ~0xF] on the whole
    64-bit header, payload field included.  So when the head of a non-empty
    quick list carries a non-zero payload field (as every block freed after
    an allocate of at least one byte does), the footer address it computes
    lies at least 4 GiB above the block; if the heap ends before that, the
    range test fails and flush_quick_list aborts. *)
Theorem flush_aborts_on_nonzero_payload :
  forall (MAGIC heap_start heads : Z) (fuel : nat) (ql_index : Z) (s : state),
    let b := ql_first (quick_list ql_index s) in
    0 < ql_length (quick_list ql_index s) ->
    mapped heap_start heads (next_of b) s = true ->
    mapped heap_start heads b s = true ->
    0 <= b < 9223372036854775808 ->
    1 <= tag_payload MAGIC s b < 2147483648 ->
    heap_end s <= b + 4294967288 ->
    flush_quick_list MAGIC heap_start heads (S fuel) ql_index s = Abort.
Proof.
  intros MAGIC heap_start heads fuel ql_index s b Hlen Hmn Hmb Hb Hpay Hend.
  unfold tag_payload in Hpay.
  set (d := Z.lxor (word s b) MAGIC) in *.
  rewrite Z.shiftr_div_pow2 in Hpay by lia. change (2 ^ 32) with 4294967296 in Hpay.
  assert (Hd : 4294967296 <= d < 9223372036854775808).
  { pose proof (Z.div_mod d 4294967296 ltac:(lia)) as E.
    pose proof (Z.mod_pos_bound d 4294967296 ltac:(lia)) as Em. lia. }
  assert (Hbs : 4294967296 <= Z.land d NOT_0xF <= d).
  { rewrite land_NOT_0xF.
    pose proof (Z.div_mod d 16 ltac:(lia)) as E.
    pose proof (Z.mod_pos_bound d 16 ltac:(lia)) as Em.
    assert (268435456 <= d / 16) by (apply Z.div_le_lower_bound; lia). lia. }
  cbn [flush_quick_list]. unfold bind at 1, get.
  fold b. apply Z.gtb_lt in Hlen. rewrite Hlen.
  unfold bind at 1. rewrite (load_mapped _ _ _ _ Hmn).
  unfold bind at 1, modify.
  set (s1 := set_quick_list ql_index _ s).
  assert (Hmb1 : mapped heap_start heads b s1 = true) by exact Hmb.
  unfold bind at 1. rewrite (load_mapped _ _ _ _ Hmb1).
  change (word s1 b) with (word s b). cbv zeta. fold d.
  unfold bind at 1. rewrite (store_mapped _ _ _ _ _ Hmb1).
  set (s2 := set_mem _ s1).
  unfold bind at 1, get. change (heap_end s2) with (heap_end s).
  assert (Hfoot : psub (padd b (Z.land d NOT_0xF)) 8 = b + Z.land d NOT_0xF - 8).
  { unfold psub, padd. rewrite (w64_small (b + _)) by (unfold two64; lia).
    apply w64_small. unfold two64. lia. }
  rewrite Hfoot.
  assert (Hlt : (b + Z.land d NOT_0xF - 8 <? heap_end s) = false)
    by (apply Z.ltb_ge; lia).
  rewrite Hlt, andb_false_r. reflexivity.
Qed.

Lemma flush_aborts_on_nonzero_payload_witness :
  let s := state_of (fill_quick_list_0 SAMPLE_MAGIC (fresh HEAP_BASE 37))
                    (fresh HEAP_BASE 37) in
  ql_length (quick_list 0 s) = 5
  /\ flush_quick_list SAMPLE_MAGIC HEAP_BASE HEADS_BASE 6 0 s = Abort.
Proof.
  intros s. split; [vm_compute; reflexivity|].
  apply (flush_aborts_on_nonzero_payload
           SAMPLE_MAGIC HEAP_BASE HEADS_BASE 5 0 s).
  - vm_compute. reflexivity.
  - vm_compute. reflexivity.
  - vm_compute. reflexivity.
  - vm_compute. split; [discriminate | reflexivity].
  - vm_compute. split; [discriminate | reflexivity].
  - vm_compute. discriminate.
Defined.

(** ** Pushing a small block on its quick list *)

Lemma tag_as_sum (n fs b : Z) :
  0 <= n < 4294967296 -> 0 <= fs < 4294967296 -> fs mod 16 = 0 -> 0 <= b < 16 ->
  Z.lor (w64 (Z.shiftl n 32)) (Z.lor fs b) = n * 4294967296 + (fs + b).
Proof.
  intros Hn Hfs Hal Hb.
  assert (Hs : w64 (Z.shiftl n 32) = n * 4294967296).
  { rewrite Z.shiftl_mul_pow2 by lia. change (2 ^ 32) with 4294967296.
    apply w64_small. unfold two64.
    change (2 ^ 64) with (4294967296 * 4294967296). nia. }
  rewrite Hs.
  rewrite (lor_disjoint_add fs b).
  2:{ apply (land_low_bits_disjoint 4); [lia | exact Hal | ].
      change (2 ^ 4) with 16. lia. }
  apply lor_disjoint_add.
  apply (land_low_bits_disjoint 32); [lia | | ].
  - change (2 ^ 32) with 4294967296. apply Z_mod_mult.
  - change (2 ^ 32) with 4294967296.
    pose proof (Z.div_mod fs 16 ltac:(lia)) as Hd. rewrite Hal in Hd.
    assert (fs / 16 < 268435456) by (apply Z.div_lt_upper_bound; lia). lia.
Qed.

Lemma tag_fields (n fs b : Z) :
  0 <= n < 4294967296 -> 0 <= fs < 4294967296 -> fs mod 16 = 0 -> 0 <= b < 16 ->
  let tag := Z.lor (w64 (Z.shiftl n 32)) (Z.lor fs b) in
  Z.shiftr tag 32 = n
  /\ Z.land (Z.land tag MASK32) NOT_0xF = fs
  /\ Z.land tag 15 = b.
Proof.
  intros Hn Hfs Hal Hb tag.
  pose proof (tag_as_sum n fs b Hn Hfs Hal Hb) as Hsum. fold tag in Hsum.
  pose proof (Z.div_mod fs 16 ltac:(lia)) as Hd. rewrite Hal in Hd.
  assert (Hfs' : fs + b < 4294967296).
  { assert (fs / 16 < 268435456) by (apply Z.div_lt_upper_bound; lia). lia. }
  split; [|split].
  - rewrite Hsum, Z.shiftr_div_pow2 by lia. change (2 ^ 32) with 4294967296.
    rewrite Z.add_comm, Z.div_add by lia.
    rewrite Z.div_small by lia. reflexivity.
  - change MASK32 with (Z.ones 32). rewrite Z.land_ones by lia.
    change (2 ^ 32) with 4294967296.
    rewrite Hsum, Z.add_comm, Z.mod_add by lia.
    rewrite Z.mod_small by lia. rewrite land_NOT_0xF.
    assert ((fs + b) / 16 = fs / 16).
    { symmetry. apply (Z.div_unique_pos _ _ _ b); lia. }
    lia.
  - change 15 with (Z.ones 4). rewrite Z.land_ones by lia.
    change (2 ^ 4) with 16. rewrite Hsum.
    symmetry. apply (Z.mod_unique_pos _ _ (n * 268435456 + fs / 16)); lia.
Qed.

Lemma quick_list_set_same (i : Z) (q : qlist) (s : state) :
  (Z.to_nat i < length (sf_quick_lists s))%nat ->
  quick_list i (set_quick_list i q s) = q.
Proof.
  intros H. unfold quick_list, set_quick_list. simpl.
  rewrite list_lookup_insert_eq by exact H. reflexivity.
Qed.

(** X14. Freeing a block of at most 176 bytes whose quick list is not full: if
    free returns, the block is the new head of the quick list of its size,
    the list is one longer, the block's link word holds the former head
    (LIFO), and its header keeps size and payload fields with both
    ALLOCATED and IN_QUICK_LIST set. *)
Theorem free_pushes_small_block_on_quick_list :
  forall (MAGIC heap_start heads : Z) (fuel : nat) (pp : Z) (s s' : state) (u : unit),
    let b := psub pp 8 in
    let k := (tag_size MAGIC s b - 32) / 16 in
    pp <> NULL ->
    0 <= Z.lxor (word s b) MAGIC < two64 ->
    tag_size MAGIC s b <= 176 ->
    ql_length (quick_list k s) < QUICK_LIST_MAX ->
    length (sf_quick_lists s) = 10%nat ->
    sf_free MAGIC heap_start heads fuel pp s = Ret u s' ->
    quick_list k s' = QList (ql_length (quick_list k s) + 1) b
    /\ word s' (next_of b) = ql_first (quick_list k s)
    /\ tag_flags MAGIC s' b = Z.lor THIS_BLOCK_ALLOCATED IN_QUICK_LIST
    /\ tag_size MAGIC s' b = tag_size MAGIC s b
    /\ tag_payload MAGIC s' b = tag_payload MAGIC s b.
Proof.
  intros MAGIC heap_start heads fuel pp s s' u b k Hp Hd Hsmall Hlen Hql H.
  unfold tag_size in *. unfold tag_flags, tag_payload.
  assert (Hb : 0 <= b < two64).
  { unfold b, psub, w64. apply Z.mod_pos_bound. apply two64_pos. }
  unfold sf_free in H. apply Z.eqb_neq in Hp. rewrite Hp in H. fold b in H.
  apply bind_inv in H. destruct H as (h & s0 & H0 & H).
  apply load_inv in H0. destruct H0 as (-> & Hm & ->).
  cbv zeta in H.
  set (d := Z.lxor (word s b) MAGIC) in *.
  set (bs := Z.land (Z.land d MASK32) NOT_0xF) in *.
  repeat match type of H with
         | (if ?c then abort else _) _ = _ => destruct c eqn:?; [discriminate|]
         end.
  apply bind_inv in H. destruct H as (e & sa & Ha & H).
  inversion Ha; subst e sa; clear Ha.
  match type of H with
  | (if ?c then abort else _) _ = _ => destruct c eqn:?; [discriminate|]
  end.
  apply bind_inv in H. destruct H as (u1 & s1 & H1 & H).
  inversion H1; subst s1; clear H1.
  change (32 + 16 * (NUM_QUICK_LISTS - 1)) with 176 in H.
  apply Z.leb_le in Hsmall. rewrite Hsmall in H.
  unfold push_on_quick_list in H. cbv zeta in H. fold k in H.
  destruct ((k <? 0) || (k >=? NUM_QUICK_LISTS)) eqn:Ek; [discriminate|].
  apply bind_inv in H. destruct H as (q & sq & Hq & H).
  inversion Hq; subst q sq; clear Hq.
  change (quick_list k (set_current _ s)) with (quick_list k s) in H.
  assert (Hge : (ql_length (quick_list k s) >=? QUICK_LIST_MAX) = false)
    by (rewrite Z.geb_leb; apply Z.leb_gt; exact Hlen).
  rewrite Hge in H.
  apply bind_inv in H. destruct H as (u2 & s2 & H2' & H).
  inversion H2'; subst s2; clear H2'.
  apply bind_inv in H. destruct H as (u3 & s3 & H3 & H).
  apply store_inv in H3. destruct H3 as (_ & ->).
  apply bind_inv in H. destruct H as (h & s4 & H4 & H).
  apply load_inv in H4. destruct H4 as (-> & _ & ->).
  rewrite word_insert_eq in H.
  apply bind_inv in H. destruct H as (u5 & s5 & H5 & H).
  apply store_inv in H5. destruct H5 as (_ & ->).
  apply bind_inv in H. destruct H as (q' & s6 & H6 & H).
  inversion H6; subst q' s6; clear H6.
  apply bind_inv in H. destruct H as (u7 & s7 & H7 & H).
  apply store_inv in H7. destruct H7 as (_ & ->).
  apply bind_inv in H. destruct H as (u8 & s8 & H8 & H).
  inversion H8; subst s8; clear H8.
  inversion H; subst s'; clear H.
  set (tag := Z.lor (w64 (Z.shiftl (Z.shiftr d 32) 32))
                    (Z.lor bs (Z.lor THIS_BLOCK_ALLOCATED IN_QUICK_LIST))).
  set (m1 := <[b := Z.lxor tag MAGIC]> (mem s)).
  set (m2 := <[psub (padd b bs) 8 := Z.lxor tag MAGIC]> m1).
  set (s0 := set_current (w64 (sf_current_payload s - Z.shiftr d 32)) s).
  change (quick_list k (set_mem m2 (set_mem m1 s0))) with (quick_list k s).
  set (m3 := <[next_of b := ql_first (quick_list k s)]> m2).
  set (s3 := set_mem m3 (set_mem m2 (set_mem m1 s0))).
  change (quick_list k s3) with (quick_list k s).
  assert (Hk : (Z.to_nat k < length (sf_quick_lists s3))%nat).
  { change (sf_quick_lists s3) with (sf_quick_lists s). rewrite Hql.
    apply orb_false_iff in Ek. destruct Ek as [Ek1 Ek2].
    apply Z.ltb_ge in Ek1. rewrite Z.geb_leb in Ek2. apply Z.leb_gt in Ek2.
    change NUM_QUICK_LISTS with 10 in Ek2. lia. }
  assert (Hbs : 32 <= bs /\ bs mod 16 = 0).
  { apply orb_false_iff in Heqb0. destruct Heqb0 as [E1 E2].
    apply Z.ltb_ge in E1. apply negb_false_iff in E2. apply Z.eqb_eq in E2.
    split; assumption. }
  destruct Hbs as [Hbs32 Hbs16].
  pose proof (decoded_size_range d) as Hrange. fold bs in Hrange.
  assert (Hw : word (set_quick_list k
                 {| ql_length := ql_length (quick_list k
                       (set_quick_list k
                          {| ql_length := ql_length (quick_list k s); ql_first := b |} s3)) + 1;
                    ql_first := ql_first (quick_list k
                       (set_quick_list k
                          {| ql_length := ql_length (quick_list k s); ql_first := b |} s3)) |}
                 (set_quick_list k
                    {| ql_length := ql_length (quick_list k s); ql_first := b |} s3)) b
               = Z.lxor tag MAGIC).
  { change (word s3 b = Z.lxor tag MAGIC). unfold s3, m3.
    rewrite word_insert_ne
      by (unfold next_of; apply padd_ne; [exact Hb | unfold two64; lia]).
    unfold m2.
    rewrite word_insert_ne
      by (apply psub_padd_ne; [exact Hb | unfold two64; lia]).
    unfold m1. apply word_insert_eq. }
  assert (Hshift : 0 <= Z.shiftr d 32 < 4294967296).
  { rewrite Z.shiftr_div_pow2 by lia. change (2 ^ 32) with 4294967296.
    unfold two64 in Hd. change (2 ^ 64) with (4294967296 * 4294967296) in Hd.
    split; [apply Z.div_pos; lia | apply Z.div_lt_upper_bound; lia]. }
  pose proof (tag_fields (Z.shiftr d 32) bs 5 Hshift Hrange Hbs16 ltac:(lia)) as Hf.
  cbv zeta in Hf.
  change (Z.lor THIS_BLOCK_ALLOCATED IN_QUICK_LIST) with 5 in *.
  fold tag in Hf. destruct Hf as (Hf1 & Hf2 & Hf3).
  repeat split.
  - rewrite quick_list_set_same.
    2:{ unfold set_quick_list at 1. simpl. rewrite length_insert. exact Hk. }
    rewrite quick_list_set_same by exact Hk. reflexivity.
  - change (word s3 (next_of b) = ql_first (quick_list k s)).
    unfold s3, m3. apply word_insert_eq.
  - rewrite Hw, lxor_cancel. exact Hf3.
  - rewrite Hw, lxor_cancel. exact Hf2.
  - rewrite Hw, lxor_cancel. exact Hf1.
Qed.

Lemma free_pushes_small_block_on_quick_list_witness :
  let s1 := state_of (malloc_ SAMPLE_MAGIC 20 (fresh HEAP_BASE 37))
                     (fresh HEAP_BASE 37) in
  let s2 := state_of (free_ SAMPLE_MAGIC (HEAP_BASE + 48) s1) s1 in
  quick_list 1 s2 = QList 1 (HEAP_BASE + 40)
  /\ word s2 (HEAP_BASE + 48) = NULL
  /\ tag_flags SAMPLE_MAGIC s2 (HEAP_BASE + 40) = 5
  /\ tag_size SAMPLE_MAGIC s2 (HEAP_BASE + 40) = 48
  /\ tag_payload SAMPLE_MAGIC s2 (HEAP_BASE + 40) = 20.
Proof.
  intros s1 s2.
  pose proof (free_pushes_small_block_on_quick_list
                SAMPLE_MAGIC HEAP_BASE HEADS_BASE FUEL (HEAP_BASE + 48) s1 s2 tt) as H.
  cbv zeta in H.
  assert (Hp : HEAP_BASE + 48 <> NULL) by (vm_compute; discriminate).
  assert (Hd : 0 <= Z.lxor (word s1 (psub (HEAP_BASE + 48) 8)) SAMPLE_MAGIC < two64)
    by (vm_compute; split; [discriminate | reflexivity]).
  assert (Hs : tag_size SAMPLE_MAGIC s1 (psub (HEAP_BASE + 48) 8) <= 176)
    by (vm_compute; discriminate).
  assert (Hl : ql_length
                 (quick_list ((tag_size SAMPLE_MAGIC s1 (psub (HEAP_BASE + 48) 8) - 32) / 16) s1)
               < QUICK_LIST_MAX)
    by (vm_compute; reflexivity).
  assert (Hq : length (sf_quick_lists s1) = 10%nat) by (vm_compute; reflexivity).
  assert (Hf : sf_free SAMPLE_MAGIC HEAP_BASE HEADS_BASE FUEL (HEAP_BASE + 48) s1 = Ret tt s2)
    by (vm_compute; reflexivity).
  specialize (H Hp Hd Hs Hl Hq Hf).
  vm_compute in H |- *. exact H.
Defined.

(** ** Coalescing *)

Lemma sane_free_tag_size (lower : Z) :
  sane_free_tag lower = true ->
  32 <= Z.land lower NOT_0xF /\ Z.land lower NOT_0xF mod 16 = 0.
Proof.
  unfold sane_free_tag. intros H.
  apply andb_true_iff in H. destruct H as [H _].
  apply andb_true_iff in H. destruct H as [H1 H2].
  rewrite Z.geb_leb in H1. apply Z.leb_le in H1. apply Z.eqb_eq in H2.
  split; assumption.
Qed.

Lemma sum_of_aligned (a b : Z) :
  0 <= a -> 0 <= b -> a + b < two64 -> a mod 16 = 0 -> b mod 16 = 0 ->
  w64 (a + b) = a + b /\ (a + b) mod 16 = 0.
Proof.
  intros Ha Hb Hlt Ha16 Hb16. split.
  - apply w64_small. lia.
  - rewrite Z.add_mod, Ha16, Hb16 by lia. reflexivity.
Qed.

Section Coalesce.

Variable MAGIC : Z.
Variable heap_start : Z.
Variable heads : Z.

Lemma coalesce_with_predecessor_result (target orig : Z) (bt : Z * Z) (s s1 : state) :
  0 <= orig < 4294967296 -> orig mod 16 = 0 ->
  coalesce_with_predecessor MAGIC heap_start heads target orig s = Ret bt s1 ->
  (orig <= snd bt < orig + 4294967296 /\ snd bt mod 16 = 0)
  /\ (fst bt = target
      \/ fst bt = psub target (tag_size MAGIC s (psub target 8))).
Proof.
  intros Ho Ho16 H. unfold coalesce_with_predecessor in H.
  assert (Hsame : (orig <= orig < orig + 4294967296 /\ orig mod 16 = 0)) by lia.
  destruct (target >? padd heap_start 32);
    [|inversion H; subst; simpl; split; [exact Hsame | left; reflexivity]].
  destruct (psub target 8 >=? heap_start);
    [|inversion H; subst; simpl; split; [exact Hsame | left; reflexivity]].
  apply bind_inv in H. destruct H as (v & s0 & Hv & H).
  apply load_inv in Hv. destruct Hv as (-> & _ & ->).
  cbv zeta in H.
  destruct (sane_free_tag (Z.land (Z.lxor (word s (psub target 8)) MAGIC) MASK32)) eqn:Es;
    [|inversion H; subst; simpl; split; [exact Hsame | left; reflexivity]].
  apply bind_inv in H. destruct H as (u & s2 & _ & H).
  inversion H; subst; clear H. simpl.
  apply sane_free_tag_size in Es. destruct Es as [E32 E16].
  pose proof (decoded_size_range (Z.lxor (word s (psub target 8)) MAGIC)) as Hr.
  destruct (sum_of_aligned orig
              (Z.land (Z.land (Z.lxor (word s (psub target 8)) MAGIC) MASK32) NOT_0xF))
    as [E1 E2]; try assumption; try (unfold two64; lia).
  split; [rewrite E1; split; [lia | exact E2] | right; reflexivity].
Qed.

Lemma coalesce_with_successor_result (base total t : Z) (s s1 : state) :
  0 <= total < 2 * 4294967296 -> total mod 16 = 0 ->
  coalesce_with_successor MAGIC heap_start heads base total s = Ret t s1 ->
  total <= t < total + 4294967296 /\ t mod 16 = 0.
Proof.
  intros Ho Ho16 H. unfold coalesce_with_successor in H.
  apply bind_inv in H. destruct H as (e & s0 & He & H).
  inversion He; subst e s0; clear He.
  destruct (padd (padd base total) 8 <=? heap_end s);
    [|inversion H; subst; lia].
  apply bind_inv in H. destruct H as (v & s0 & Hv & H).
  apply load_inv in Hv. destruct Hv as (-> & _ & ->).
  cbv zeta in H.
  destruct (sane_free_tag (Z.land (Z.lxor (word s (padd base total)) MAGIC) MASK32)) eqn:Es;
    [|inversion H; subst; lia].
  apply bind_inv in H. destruct H as (u & s2 & _ & H).
  inversion H; subst; clear H.
  apply sane_free_tag_size in Es. destruct Es as [E32 E16].
  pose proof (decoded_size_range (Z.lxor (word s (padd base total)) MAGIC)) as Hr.
  destruct (sum_of_aligned total
              (Z.land (Z.land (Z.lxor (word s (padd base total)) MAGIC) MASK32) NOT_0xF))
    as [E1 E2]; try assumption; try (unfold two64; lia).
  rewrite E1. split; [lia | exact E2].
Qed.

End Coalesce.

(** X15. coalesce_adjacent_free_blocks, when it returns, hands back either its
    target or the block whose footer precedes the target, with a freshly
    written boundary tag: header and footer hold the same word, which
    decodes to a bare size (no flag bits, the payload field part of it) that
    is a multiple of 16, at least the target's size and less than three
    times 2^32; the footer lies below the heap end, which has not moved. *)
Theorem coalesce_writes_matching_header_and_footer :
  forall (MAGIC heap_start heads : Z) (target base : Z) (s s' : state),
    coalesce_adjacent_free_blocks MAGIC heap_start heads target s = Ret base s' ->
    let total := Z.lxor (word s' base) MAGIC in
    word s' (psub (padd base total) 8) = word s' base
    /\ tag_size MAGIC s target <= total < 3 * 4294967296
    /\ total mod 16 = 0
    /\ psub (padd base total) 8 < heap_end s'
    /\ heap_end s' = heap_end s
    /\ (base = target \/ base = psub target (tag_size MAGIC s (psub target 8))).
Proof.
  intros MAGIC heap_start heads target base s s' H. cbv zeta.
  pose proof (keeps_coalesce_adjacent_free_blocks MAGIC heap_start heads
                (R := only_blocks_and_lists) target s base s' H) as Hk.
  destruct Hk as (_ & _ & _ & Hend & _).
  unfold coalesce_adjacent_free_blocks in H.
  destruct (target =? NULL); [discriminate|].
  apply bind_inv in H. destruct H as (h & s0 & Hh & H).
  apply load_inv in Hh. destruct Hh as (-> & _ & ->).
  cbv zeta in H. fold (tag_size MAGIC s target) in H.
  destruct ((tag_size MAGIC s target <? 32)
            || negb (tag_size MAGIC s target mod 16 =? 0)) eqn:Ec; [discriminate|].
  apply orb_false_iff in Ec. destruct Ec as [_ Ec].
  apply negb_false_iff in Ec. apply Z.eqb_eq in Ec.
  pose proof (decoded_size_range (Z.lxor (word s target) MAGIC)) as Hr.
  fold (tag_size MAGIC s target) in Hr.
  apply bind_inv in H. destruct H as (bt & s1 & Hp & H).
  apply coalesce_with_predecessor_result in Hp; [|exact Hr|exact Ec].
  destruct Hp as ((Hp1 & Hp2) & Hbase).
  apply bind_inv in H. destruct H as (t & s2 & Hs & H).
  apply coalesce_with_successor_result in Hs; [|lia|exact Hp2].
  destruct Hs as (Hs1 & Hs2).
  apply bind_inv in H. destruct H as (u1 & s3 & H1 & H).
  apply store_inv in H1. destruct H1 as (_ & ->).
  apply bind_inv in H. destruct H as (e & s4 & He & H).
  inversion He; subst e s4; clear He.
  apply bind_inv in H. destruct H as (u2 & s5 & H2 & H).
  inversion H; subst s5; clear H.
  destruct (psub (padd (fst bt) t) 8 <? heap_end s2) eqn:Ef;
    [|discriminate].
  apply bind_inv in H2. destruct H2 as (h' & s6 & H6 & H2).
  apply load_inv in H6. destruct H6 as (-> & _ & ->).
  rewrite word_insert_eq in H2.
  apply store_inv in H2. destruct H2 as (_ & ->).
  assert (Hhead : word (set_mem (<[psub (padd (fst bt) t) 8 := Z.lxor t MAGIC]>
                                   (<[fst bt := Z.lxor t MAGIC]> (mem s2)))
                                (set_mem (<[fst bt := Z.lxor t MAGIC]> (mem s2)) s2))
                       (fst bt) = Z.lxor t MAGIC).
  { destruct (Z.eq_dec (psub (padd (fst bt) t) 8) (fst bt)) as [E|E].
    - rewrite E at 1. apply word_insert_eq.
    - rewrite word_insert_ne by exact E. apply word_insert_eq. }
  set (total := Z.lxor (word _ (fst bt)) MAGIC).
  assert (Ht : total = t).
  { unfold total. transitivity (Z.lxor (Z.lxor t MAGIC) MAGIC);
      [f_equal; exact Hhead | apply lxor_cancel]. }
  rewrite Ht.
  split; [transitivity (Z.lxor t MAGIC); [apply word_insert_eq | symmetry; exact Hhead]|].
  split; [lia|]. split; [exact Hs2|].
  split; [apply Z.ltb_lt in Ef; exact Ef|].
  split; [exact Hend | exact Hbase].
Qed.

Lemma coalesce_writes_matching_header_and_footer_witness :
  let s1 := state_of (malloc_ SAMPLE_MAGIC 300 (fresh HEAP_BASE 37))
                     (fresh HEAP_BASE 37) in
  let s2 := state_of
              ((store HEAP_BASE HEADS_BASE (HEAP_BASE + 40) (Z.lxor 320 SAMPLE_MAGIC) ;;;
                store HEAP_BASE HEADS_BASE (HEAP_BASE + 352) (Z.lxor 320 SAMPLE_MAGIC)) s1)
              s1 in
  let s3 := state_of (coalesce_adjacent_free_blocks SAMPLE_MAGIC HEAP_BASE HEADS_BASE
                        (HEAP_BASE + 40) s2) s2 in
  tag_size SAMPLE_MAGIC s2 (HEAP_BASE + 40) = 320
  /\ Z.lxor (word s3 (HEAP_BASE + 40)) SAMPLE_MAGIC = 4048
  /\ word s3 (HEAP_BASE + 4080) = word s3 (HEAP_BASE + 40).
Proof.
  intros s1 s2 s3.
  pose proof (coalesce_writes_matching_header_and_footer
                SAMPLE_MAGIC HEAP_BASE HEADS_BASE (HEAP_BASE + 40) (HEAP_BASE + 40) s2 s3) as H.
  cbv zeta in H.
  assert (Hc : coalesce_adjacent_free_blocks SAMPLE_MAGIC HEAP_BASE HEADS_BASE
                 (HEAP_BASE + 40) s2 = Ret (HEAP_BASE + 40) s3)
    by (vm_compute; reflexivity).
  destruct (H Hc) as (H1 & _).
  split; [vm_compute; reflexivity|].
  split; [vm_compute; reflexivity|].
  vm_compute in H1 |- *. exact H1.
Defined.

(** ** Inserting into and removing from a free list *)

Section ListLinks.

Variable MAGIC : Z.
Variable heap_start : Z.
Variable heads : Z.

Lemma bind_load {B} (a : Z) (k : Z -> M B) (m : gmap Z Z) (s : state) :
  mapped heap_start heads a s = true ->
  bind (load heap_start heads a) k (set_mem m s)
  = k (default 0 (m !! a)) (set_mem m s).
Proof.
  intros H. unfold bind, load. rewrite mapped_set_mem, H. reflexivity.
Qed.

Lemma bind_store {B} (a v : Z) (k : unit -> M B) (m : gmap Z Z) (s : state) :
  mapped heap_start heads a s = true ->
  bind (store heap_start heads a v) k (set_mem m s)
  = k tt (set_mem (<[a := v]> m) s).
Proof.
  intros H. unfold bind, store. rewrite mapped_set_mem, H. reflexivity.
Qed.

Lemma store_set_mem (a v : Z) (m : gmap Z Z) (s : state) :
  mapped heap_start heads a s = true ->
  store heap_start heads a v (set_mem m s) = Ret tt (set_mem (<[a := v]> m) s).
Proof.
  intros H. unfold store. rewrite mapped_set_mem, H. reflexivity.
Qed.

(** The memory insert_block_into_free_list leaves, when the link word of the
    sentinel is none of the block's own four words. *)
Lemma insert_block_into_free_list_runs (b : Z) (m : gmap Z Z) (s : state) :
  let size := Z.land (Z.lxor (default 0 (m !! b)) MAGIC) NOT_0xF in
  let sentinel := free_list_head heads (get_free_list_index_for_size size) in
  let footer := psub (padd b size) 8 in
  let first := default 0 (m !! next_of sentinel) in
  mapped heap_start heads b s = true ->
  mapped heap_start heads footer s = true ->
  mapped heap_start heads (next_of sentinel) s = true ->
  mapped heap_start heads (next_of b) s = true ->
  mapped heap_start heads (prev_of b) s = true ->
  mapped heap_start heads (prev_of first) s = true ->
  b <> next_of sentinel -> footer <> next_of sentinel ->
  next_of b <> next_of sentinel -> prev_of b <> next_of sentinel ->
  insert_block_into_free_list MAGIC heap_start heads b (set_mem m s)
  = Ret tt (set_mem (<[next_of sentinel := b]>
                     (<[prev_of first := b]>
                      (<[prev_of b := sentinel]>
                       (<[next_of b := first]>
                        (<[footer := Z.lxor size MAGIC]>
                         (<[b := Z.lxor size MAGIC]> m)))))) s).
Proof.
  intros size sentinel footer first Mb Mf Ma Mn Mp Mq N1 N2 N3 N4.
  unfold insert_block_into_free_list.
  rewrite bind_load by exact Mb. cbv zeta. fold size.
  rewrite bind_store by exact Mb.
  rewrite bind_load by exact Mb. rewrite lookup_insert_eq. cbn [default from_option id].
  fold footer. rewrite bind_store by exact Mf.
  fold sentinel.
  rewrite bind_load by exact Ma.
  rewrite !lookup_insert_ne by assumption. fold first.
  rewrite bind_store by exact Mn.
  rewrite bind_store by exact Mp.
  rewrite bind_load by exact Ma.
  rewrite !lookup_insert_ne by assumption. fold first.
  rewrite bind_store by exact Mq.
  apply store_set_mem. exact Ma.
Qed.

(** The memory remove_block_from_free_list leaves for a block whose two
    link words hold non-null pointers to other nodes. *)
Lemma remove_block_from_free_list_runs (b : Z) (m : gmap Z Z) (s : state) :
  let previous := default 0 (m !! prev_of b) in
  let next := default 0 (m !! next_of b) in
  b <> NULL -> previous <> NULL -> next <> NULL ->
  previous <> b -> next <> b ->
  mapped heap_start heads (prev_of b) s = true ->
  mapped heap_start heads (next_of b) s = true ->
  mapped heap_start heads (next_of previous) s = true ->
  mapped heap_start heads (prev_of next) s = true ->
  remove_block_from_free_list heap_start heads b (set_mem m s)
  = Ret tt (set_mem (<[prev_of next := previous]>
                     (<[next_of previous := next]> m)) s).
Proof.
  intros previous next Hb Hp Hn Hpb Hnb Mp Mn Mpn Mnp.
  unfold remove_block_from_free_list.
  apply Z.eqb_neq in Hb, Hp, Hn, Hpb, Hnb. rewrite Hb.
  rewrite bind_load by exact Mp. fold previous.
  rewrite bind_load by exact Mn. fold next.
  rewrite Hp, Hn, Hpb, Hnb. cbn [orb negb].
  rewrite bind_store by exact Mpn.
  apply store_set_mem. exact Mnp.
Qed.

End ListLinks.

Lemma get_free_list_index_for_size_range (n : Z) :
  0 <= get_free_list_index_for_size n <= 9.
Proof.
  rewrite get_free_list_index_for_size_cases.
  repeat match goal with |- context [if ?c then _ else _] => destruct c end; lia.
Qed.

(** X16. Inserting a block into its free list and removing it again returns and
    leaves the list as it was: the sentinel's forward link holds the former
    first node again, that node's back link holds the sentinel, and no word
    outside the block's own header, footer and two links differs.  The
    block lies in the heap, the sentinels below it, and the former first
    node is the sentinel itself (empty list) or a heap node apart from the
    block. *)
Theorem insert_then_remove_restores_the_list :
  forall (MAGIC heap_start heads b : Z) (s : state),
    let size := Z.land (Z.lxor (word s b) MAGIC) NOT_0xF in
    let sentinel := free_list_head heads (get_free_list_index_for_size size) in
    let first := word s (next_of sentinel) in
    0 < heads -> heads + SIZEOF_BLOCK * NUM_FREE_LISTS <= heap_start ->
    heap_end s < two64 ->
    heap_start <= b -> 32 <= size -> b + size <= heap_end s ->
    (first = sentinel
     \/ (heap_start <= first /\ first + 24 <= heap_end s
         /\ (first + 24 <= b \/ b + 24 <= first))) ->
    exists s',
      (insert_block_into_free_list MAGIC heap_start heads b ;;;
       remove_block_from_free_list heap_start heads b) s = Ret tt s'
      /\ word s' (next_of sentinel) = first
      /\ word s' (prev_of first) = sentinel
      /\ (forall a, a <> b -> a <> psub (padd b size) 8 ->
                    a <> next_of b -> a <> prev_of b -> a <> prev_of first ->
                    word s' a = word s a).
Proof.
  intros MAGIC heap_start heads b [m e av ql c p er].
  set (s0 := State m e av ql c p er).
  intros size sentinel first Hh Hd He Hb H32 Hfit Hfirst.
  change (heap_end s0) with e in *.
  pose proof (get_free_list_index_for_size_range size) as Hidx.
  change SIZEOF_BLOCK with 24 in Hd. change NUM_FREE_LISTS with 10 in Hd.
  assert (HS : heads <= sentinel <= heads + 216)
    by (unfold sentinel, free_list_head; change SIZEOF_BLOCK with 24; lia).
  unfold two64 in He.
  assert (EA : next_of sentinel = sentinel + 8)
    by (unfold next_of, padd; apply w64_small; unfold two64; lia).
  assert (Eb8 : next_of b = b + 8)
    by (unfold next_of, padd; apply w64_small; unfold two64; lia).
  assert (Eb16 : prev_of b = b + 16)
    by (unfold prev_of, padd; apply w64_small; unfold two64; lia).
  assert (Ef : psub (padd b size) 8 = b + size - 8).
  { unfold psub, padd. rewrite (w64_small (b + size)) by (unfold two64; lia).
    apply w64_small. unfold two64. lia. }
  assert (EP : prev_of first = first + 16).
  { unfold prev_of, padd. apply w64_small. unfold two64.
    destruct Hfirst as [E|E]; [rewrite E|]; lia. }
  assert (Mheap : forall a, heap_start <= a -> a + 8 <= e ->
                            mapped heap_start heads a s0 = true).
  { intros a H1 H2. unfold mapped, in_heap. apply orb_true_iff. left.
    apply andb_true_iff. split; apply Z.leb_le; [exact H1 | exact H2]. }
  assert (Mheads : forall a, heads <= a -> a + 8 <= heads + 240 ->
                             mapped heap_start heads a s0 = true).
  { intros a H1 H2. unfold mapped, in_heads. apply orb_true_iff. right.
    apply andb_true_iff. split; apply Z.leb_le; [exact H1 | exact H2]. }
  assert (MP : mapped heap_start heads (prev_of first) s0 = true).
  { rewrite EP. destruct Hfirst as [E|E];
      [rewrite E; apply Mheads | apply Mheap]; lia. }
  assert (MA : mapped heap_start heads (next_of sentinel) s0 = true)
    by (rewrite EA; apply Mheads; lia).
  assert (Mb8 : mapped heap_start heads (next_of b) s0 = true)
    by (rewrite Eb8; apply Mheap; lia).
  assert (Mb16 : mapped heap_start heads (prev_of b) s0 = true)
    by (rewrite Eb16; apply Mheap; lia).
  assert (Hfs : first <> b /\ first + 16 <> b + 8 /\ first + 16 <> b + 16
                /\ first + 16 <> sentinel + 8 /\ 0 < first)
    by (destruct Hfirst as [E|E]; [rewrite E|]; lia).
  destruct Hfs as (F1 & F2 & F3 & F4 & F5).
  assert (Mb : mapped heap_start heads b s0 = true) by (apply Mheap; lia).
  assert (Mf : mapped heap_start heads (psub (padd b size) 8) s0 = true)
    by (rewrite Ef; apply Mheap; lia).
  assert (N1 : b <> next_of sentinel) by (rewrite EA; lia).
  assert (N2 : psub (padd b size) 8 <> next_of sentinel) by (rewrite Ef, EA; lia).
  assert (N3 : next_of b <> next_of sentinel) by (rewrite Eb8, EA; lia).
  assert (N4 : prev_of b <> next_of sentinel) by (rewrite Eb16, EA; lia).
  pose proof (insert_block_into_free_list_runs MAGIC heap_start heads b m s0
                Mb Mf MA Mb8 Mb16 MP N1 N2 N3 N4) as Hins.
  cbv zeta in Hins.
  change (Z.land (Z.lxor (default 0 (m !! b)) MAGIC) NOT_0xF) with size in Hins.
  fold sentinel in Hins.
  change (default 0 (m !! next_of sentinel)) with first in Hins.
  set (m6 := <[next_of sentinel := b]> _) in Hins.
  assert (Hins' : insert_block_into_free_list MAGIC heap_start heads b s0
                  = Ret tt (set_mem m6 s0)) by exact Hins.
  assert (Hprev : default 0 (m6 !! prev_of b) = sentinel).
  { unfold m6. rewrite lookup_insert_ne by (rewrite EA, Eb16; lia).
    rewrite lookup_insert_ne by (rewrite EP, Eb16; lia).
    rewrite lookup_insert_eq. reflexivity. }
  assert (Hnext : default 0 (m6 !! next_of b) = first).
  { unfold m6. rewrite lookup_insert_ne by (rewrite EA, Eb8; lia).
    rewrite lookup_insert_ne by (rewrite EP, Eb8; lia).
    rewrite lookup_insert_ne by (rewrite Eb16, Eb8; lia).
    rewrite lookup_insert_eq. reflexivity. }
  pose proof (remove_block_from_free_list_runs heap_start heads b m6 s0) as Hrem.
  cbv zeta in Hrem. rewrite Hprev, Hnext in Hrem.
  specialize (Hrem ltac:(unfold NULL; lia) ltac:(unfold NULL; lia)
                   ltac:(unfold NULL; lia) ltac:(lia) F1 Mb16 Mb8 MA MP).
  exists (set_mem (<[prev_of first := sentinel]> (<[next_of sentinel := first]> m6)) s0).
  split; [unfold bind; rewrite Hins'; exact Hrem|].
  assert (NPA : prev_of first <> next_of sentinel) by (rewrite EP, EA; lia).
  split; [rewrite word_insert_ne by exact NPA; apply word_insert_eq|].
  split; [apply word_insert_eq|].
  intros a A1 A2 A3 A4 A5.
  rewrite word_insert_ne by (intros E; apply A5; symmetry; exact E).
  destruct (Z.eq_dec a (next_of sentinel)) as [->|A6]; [apply word_insert_eq|].
  rewrite word_insert_ne by (intros E; apply A6; symmetry; exact E).
  unfold m6.
  rewrite word_insert_ne by (intros E; apply A6; symmetry; exact E).
  rewrite word_insert_ne by (intros E; apply A5; symmetry; exact E).
  rewrite word_insert_ne by (intros E; apply A4; symmetry; exact E).
  rewrite word_insert_ne by (intros E; apply A3; symmetry; exact E).
  rewrite word_insert_ne by (intros E; apply A2; symmetry; exact E).
  rewrite word_insert_ne by (intros E; apply A1; symmetry; exact E).
  reflexivity.
Qed.

Lemma insert_then_remove_restores_the_list_witness :
  let s1 := state_of (malloc_ SAMPLE_MAGIC 2000 (fresh HEAP_BASE 37))
                     (fresh HEAP_BASE 37) in
  let s2 := state_of
              (store HEAP_BASE HEADS_BASE (HEAP_BASE + 40) (Z.lxor 2016 SAMPLE_MAGIC) s1)
              s1 in
  word s2 (HEADS_BASE + 152) = HEAP_BASE + 2056
  /\ exists s',
       (insert_block_into_free_list SAMPLE_MAGIC HEAP_BASE HEADS_BASE (HEAP_BASE + 40) ;;;
        remove_block_from_free_list HEAP_BASE HEADS_BASE (HEAP_BASE + 40)) s2 = Ret tt s'
       /\ word s' (HEADS_BASE + 152) = HEAP_BASE + 2056
       /\ word s' (HEAP_BASE + 2072) = HEADS_BASE + 144.
Proof.
  intros s1 s2.
  split; [vm_compute; reflexivity|].
  destruct (insert_then_remove_restores_the_list
              SAMPLE_MAGIC HEAP_BASE HEADS_BASE (HEAP_BASE + 40) s2)
    as (s' & H1 & H2 & H3 & _).
  - vm_compute. reflexivity.
  - vm_compute. discriminate.
  - vm_compute. reflexivity.
  - vm_compute. discriminate.
  - vm_compute. discriminate.
  - vm_compute. discriminate.
  - right. vm_compute. repeat split; try discriminate. right. discriminate.
  - exists s'. split; [exact H1|].
    assert (E1 : next_of (free_list_head HEADS_BASE
                   (get_free_list_index_for_size
                      (Z.land (Z.lxor (word s2 (HEAP_BASE + 40)) SAMPLE_MAGIC) NOT_0xF)))
                 = HEADS_BASE + 152) by (vm_compute; reflexivity).
    assert (E2 : word s2 (HEADS_BASE + 152) = HEAP_BASE + 2056) by (vm_compute; reflexivity).
    assert (E3 : prev_of (HEAP_BASE + 2056) = HEAP_BASE + 2072) by (vm_compute; reflexivity).
    assert (E4 : free_list_head HEADS_BASE
                   (get_free_list_index_for_size
                      (Z.land (Z.lxor (word s2 (HEAP_BASE + 40)) SAMPLE_MAGIC) NOT_0xF))
                 = HEADS_BASE + 144) by (vm_compute; reflexivity).
    rewrite E1, E2 in H2. rewrite E1, E2, E3, E4 in H3.
    split; [exact H2 | exact H3].
Defined.
